(** * CNS Orchestrator: a shallow embedding of [index.js]

    The orchestrator mirrors the key space [cns/...] of an etcd store in an
    in-memory [cache], pairs provider and consumer capabilities
    ([build], [consumers], [allsystems], [bysystem]), writes both sides of
    each missing connection ([connections]) and forwards property writes
    ([update], [propagate]).  The embedding follows [index.js]:

    - strings are [string]s of code units up to U+00FF; [key.split('/')]
      is [split];
    - the values the code tests against [undefined] and [null] are [value]s;
    - a JavaScript object used as a string-keyed map ([cache], the results
      of [filter], [properties]) is an [object]: its entries in [for..in]
      order, an assignment replacing in place or appending.  Property names
      are plain map keys: the place an engine gives to array-index names in
      the enumeration, and the accessor name [__proto__], are not
      modelled;
    - [new RegExp(...).test] is modelled on the fragment of the pattern
      grammar that [match] can produce ([RegExp.compile], [RegExp.test]);
    - [put] is the only store effect of the engine: the functions that call
      it return the list of the puts they issue, in order; [short.generate]
      is an id supply that the writer threads through.

    The store client is taken to be connected, and a reader of the cache
    sees one snapshot for the duration of one call. *)

From Stdlib Require Import String Ascii List Bool Arith Lia.
Import ListNotations.

Local Open Scope list_scope.
Local Open Scope string_scope.

(** ** JavaScript values and strings *)

Module Js.

(** What an index into an array of strings, or a lookup in an object of
    strings, evaluates to; [null] is what the code compares against. *)
Inductive value : Type :=
| undefined
| null
| str (s : string).

(** [ToString], as applied by [+] with a string operand. *)
Definition to_string (v : value) : string :=
  match v with
  | undefined => "undefined"
  | null => "null"
  | str s => s
  end.

(** [a === b]. *)
Definition strict_eq (a b : value) : bool :=
  match a, b with
  | undefined, undefined => true
  | null, null => true
  | str s, str t => String.eqb s t
  | _, _ => false
  end.

(** [s.split(sep)] for a one-character separator: never empty. *)
Fixpoint split (sep : ascii) (s : string) : list string :=
  match s with
  | EmptyString => [EmptyString]
  | String c s' =>
      if Ascii.eqb c sep then EmptyString :: split sep s'
      else match split sep s' with
           | seg :: rest => String c seg :: rest
           | [] => [String c EmptyString]
           end
  end.

(** [parts[n]]. *)
Definition item (parts : list string) (n : nat) : value :=
  match nth_error parts n with
  | Some s => str s
  | None => undefined
  end.

(** [parts.join(sep)] on an array whose elements may be [undefined]:
    [undefined] and [null] are joined as the empty string. *)
Definition join_item (v : value) : string :=
  match v with
  | str s => s
  | _ => EmptyString
  end.

Definition join (sep : string) (parts : list value) : string :=
  String.concat sep (map join_item parts).

(** [parts.pop()], for its effect on [parts]. *)
Definition pop {A : Type} (parts : list A) : list A := removelast parts.

(** Objects whose values are strings, as the list of their entries in
    enumeration order. *)
Definition object : Type := list (string * string).

(** [o[k]]. *)
Fixpoint get (o : object) (k : string) : value :=
  match o with
  | [] => undefined
  | (k', v) :: o' => if String.eqb k' k then str v else get o' k
  end.

(** [o[k] = v]. *)
Fixpoint set (o : object) (k v : string) : object :=
  match o with
  | [] => [(k, v)]
  | (k', v') :: o' =>
      if String.eqb k' k then (k', v) :: o' else (k', v') :: set o' k v
  end.

Definition keys (o : object) : list string := map fst o.

(** No key is listed twice: every object built by [set] from [[]] is so. *)
Definition well_formed (o : object) : Prop := NoDup (keys o).

End Js.

Import Js.

(** ** The regular expressions of [match] *)

Module RegExp.

(** The characters of the class [[.*+?^=!:${}()|\[\]\/\\]] that [esc]
    prefixes with a backslash. *)
Definition escaped (c : ascii) : bool :=
  existsb (Ascii.eqb c)
    ["."; "*"; "+"; "?"; "^"; "="; "!"; ":"; "$"; "{"; "}"; "("; ")"; "|";
     "["; "]"; "/"; "\"]%char.

(** [s.replace(/([.*+?^=!:${}()|\[\]\/\\])/g, '\\$1')]. *)
Fixpoint esc (s : string) : string :=
  match s with
  | EmptyString => EmptyString
  | String c s' =>
      if escaped c then String "\" (String c (esc s')) else String c (esc s')
  end.

(** The pattern text handed to [new RegExp]:
    ['^' + filter.split('*').map(esc).join('.*') + '$']. *)
Definition source (filter : string) : string :=
  "^" ++ String.concat ".*" (map esc (split "*" filter)) ++ "$".

(** [SyntaxCharacter] of the ECMAScript pattern grammar. *)
Definition syntax_character (c : ascii) : bool :=
  existsb (Ascii.eqb c)
    ["^"; "$"; "\"; "."; "*"; "+"; "?"; "("; ")"; "["; "]"; "{"; "}"; "|"]%char.

(** The terms a compiled pattern of the fragment consists of: one pattern
    character (written plainly or as an identity escape), or [.*]. *)
Inductive term : Type :=
| Char (c : ascii)
| AnyStar.

(** The body of a pattern, up to and including the closing [$].  [None]
    stands for every pattern outside the fragment (among them the ones the
    constructor rejects); [source_compiles] shows [match] builds none. *)
Fixpoint compile_body (s : string) : option (list term) :=
  match s with
  | EmptyString => None
  | String c s' =>
      if Ascii.eqb c "$" then
        match s' with
        | EmptyString => Some []
        | _ => None
        end
      else if Ascii.eqb c "\" then
        match s' with
        | String d s'' =>
            if escaped d then option_map (cons (Char d)) (compile_body s'')
            else None
        | EmptyString => None
        end
      else if Ascii.eqb c "." then
        match s' with
        | String d s'' =>
            if Ascii.eqb d "*" then option_map (cons AnyStar) (compile_body s'')
            else None
        | EmptyString => None
        end
      else if syntax_character c then None
      else option_map (cons (Char c)) (compile_body s')
  end.

(** [new RegExp(src, 'i')] for a pattern anchored at both ends. *)
Definition compile (src : string) : option (list term) :=
  match src with
  | String c body => if Ascii.eqb c "^" then compile_body body else None
  | EmptyString => None
  end.

(** [Canonicalize] under the [i] flag without [u], on code units below 256:
    the upper-case mapping of a-z and of the Latin-1 letters U+00E0-U+00FE
    other than U+00F7; every other code unit of the range is left alone or
    sent outside the range to a value of its own. *)
Definition canonicalize (c : ascii) : nat :=
  let n := nat_of_ascii c in
  if ((97 <=? n) && (n <=? 122))%nat then n - 32
  else if ((224 <=? n) && (n <=? 254) && negb (n =? 247))%nat then n - 32
  else n.

Definition same_letter (c d : ascii) : bool :=
  (canonicalize c =? canonicalize d)%nat.

(** [LineTerminator]: what [.] does not match (no [s] flag).  LF and CR are
    the two below 256. *)
Definition line_terminator (c : ascii) : bool :=
  let n := nat_of_ascii c in ((n =? 10) || (n =? 13))%nat.

(** [r.test(text)]: the whole text is matched, by backtracking over [.*]. *)
Fixpoint test (r : list term) : string -> bool :=
  match r with
  | [] => fun text =>
      match text with
      | EmptyString => true
      | String _ _ => false
      end
  | Char c :: r' => fun text =>
      match text with
      | EmptyString => false
      | String d text' => same_letter c d && test r' text'
      end
  | AnyStar :: r' =>
      fix star (text : string) : bool :=
        test r' text
        || match text with
           | EmptyString => false
           | String d text' => negb (line_terminator d) && star text'
           end
  end.

End RegExp.

(** ** Key parser and wildcard filter *)

(** [match(text, filter)]. *)
Definition match_ (text filter : string) : bool :=
  match RegExp.compile (RegExp.source filter) with
  | Some r => RegExp.test r text
  | None => false
  end.

(** The loop of [compare] over [keys[n]], [filters[n]]; the lists have the
    same length when it runs. *)
Fixpoint compare_segments (keys filters : list string) : bool :=
  match keys, filters with
  | k :: keys', f :: filters' =>
      if match_ k f then compare_segments keys' filters' else false
  | _, _ => true
  end.

(** [compare(key, filters)]. *)
Definition compare (key : string) (filters : list string) : bool :=
  let keys := split "/" key in
  if (List.length keys =? List.length filters)%nat
  then compare_segments keys filters
  else false.

(** The body of the loop of [filter]:
    [if (compare(key, filters)) result[key] = keys[key]]. *)
Definition keep (filters : list string) (result : object)
    (entry : string * string) : object :=
  let '(key, v) := entry in
  if compare key filters then set result key v else result.

(** [filter(keys, filter)]. *)
Definition filter (keys : object) (filter : string) : object :=
  let filters := split "/" filter in
  fold_left (keep filters) keys [].

(** ** The engine *)

(** One call [put(key, value)] on the store client. *)
Definition write : Type := (string * string)%type.

(** The store as the puts leave it, and the cache as the watcher's
    [cache[key] = value] leaves it when the puts come back as events. *)
Definition apply_writes (o : object) (ws : list write) : object :=
  fold_left (fun o '(k, v) => set o k v) ws o.

(** [isValidMode(mode)]. *)
Definition isValidMode (mode : value) : bool :=
  if strict_eq mode (str "allsystems") then true
  else if strict_eq mode (str "bysystem") then true
  else false.

(** [getOppositeRole(role, provider)]. *)
Definition getOppositeRole (role provider : value) : value :=
  if strict_eq role (str "provider") then
    if strict_eq provider (str "yes") then str "consumer" else null
  else if strict_eq role (str "consumer") then
    if negb (strict_eq provider (str "yes")) then str "provider" else null
  else null.

(** The key of the provider flag of a property in a profile version. *)
Definition flag_key (network profile version property : value) : string :=
  "cns/" ++ to_string network ++ "/profiles/" ++ to_string profile
  ++ "/versions/version" ++ to_string version
  ++ "/properties/" ++ to_string property ++ "/provider".

(** The capability prefix [ns] that [update] and [propagate] build. *)
Definition capability_ns (network node context role profile : value) : string :=
  "cns/" ++ to_string network ++ "/nodes/" ++ to_string node
  ++ "/contexts/" ++ to_string context ++ "/" ++ to_string role
  ++ "/" ++ to_string profile.

(** [update(key, value)]: the puts it issues. *)
Definition update (cache : object) (key value : string) : list write :=
  let parts := split "/" key in
  let network := item parts 1 in
  let node := item parts 3 in
  let context := item parts 5 in
  let role := item parts 6 in
  let profile := item parts 7 in
  let connection := item parts 9 in
  let property := item parts 11 in
  let ns := "cns/" ++ to_string network in
  let mode := get cache (ns ++ "/orchestrator") in
  if negb (isValidMode mode) then [] else
  let ns := capability_ns network node context role profile in
  let version := get cache (ns ++ "/version") in
  if strict_eq version null then [] else
  let provider := get cache (flag_key network profile version property) in
  if strict_eq provider null then [] else
  let opposite := getOppositeRole role provider in
  if strict_eq opposite null then [] else
  let other :=
    get cache (ns ++ "/connections/" ++ to_string connection
               ++ "/" ++ to_string opposite) in
  if strict_eq other null then [] else
  [(to_string other ++ "/" ++ to_string opposite ++ "/" ++ to_string profile
    ++ "/connections/" ++ to_string connection
    ++ "/properties/" ++ to_string property, value)].

(** The key [propagate] writes for one connection record [key]:
    [parts.pop(); parts.push('properties'); parts.push(property);
    parts.join('/')]. *)
Definition property_key (key : string) (property : value) : string :=
  let parts := map str (split "/" key) in
  join "/" (pop parts ++ [str "properties"; property])%list.

(** [propagate(key, value)]: the puts it issues. *)
Definition propagate (cache : object) (key value : string) : list write :=
  let parts := split "/" key in
  let network := item parts 1 in
  let node := item parts 3 in
  let context := item parts 5 in
  let role := item parts 6 in
  let profile := item parts 7 in
  let property := item parts 9 in
  let ns := "cns/" ++ to_string network in
  let mode := get cache (ns ++ "/orchestrator") in
  if negb (isValidMode mode) then [] else
  let ns := capability_ns network node context role profile in
  let version := get cache (ns ++ "/version") in
  if strict_eq version null then [] else
  let provider := get cache (flag_key network profile version property) in
  if strict_eq provider null then [] else
  let opposite := getOppositeRole role provider in
  if strict_eq opposite null then [] else
  let connections :=
    filter cache (ns ++ "/connections/*/" ++ to_string opposite) in
  map (fun '(key, _) => (property_key key property, value)) connections.

(** The entries of [add]. *)
Module Candidate.
Record t : Type := make
  { provider : string; consumer : string; profile : value; version : string }.
End Candidate.

Abbreviation candidate := Candidate.t.

(** The prefix of a context, as [consumers] and [bysystem] build it. *)
Definition endpoint (network node context : value) : string :=
  "cns/" ++ to_string network ++ "/nodes/" ++ to_string node
  ++ "/contexts/" ++ to_string context.

(** [bysystem(network, provider, profile, version, scope, add)]: [add]
    after the pushes. *)
Definition bysystem (cache : object) (network : value) (provider : string)
    (profile : value) (version : string) (scope : value)
    (add : list candidate) : list candidate :=
  let nodes := filter cache ("cns/" ++ to_string network ++ "/nodes/*/name") in
  fold_left
    (fun add '(key, _) =>
       let node := item (split "/" key) 3 in
       let contexts :=
         filter cache ("cns/" ++ to_string network ++ "/nodes/"
                       ++ to_string node ++ "/contexts/*/name") in
       fold_left
         (fun add '(key, _) =>
            let context := item (split "/" key) 5 in
            if strict_eq context scope then
              let consumer := endpoint network node context in
              let capabilities :=
                filter cache (consumer ++ "/consumer/" ++ to_string profile
                              ++ "/version") in
              fold_left
                (fun add '(_, v) =>
                   if String.eqb v version
                   then (add ++ [Candidate.make provider consumer profile version])%list
                   else add)
                capabilities add
            else add)
         contexts add)
    nodes add.

(** [allsystems(provider, profile, version, scope, add)]. *)
Definition allsystems (cache : object) (provider : string) (profile : value)
    (version : string) (scope : value) (add : list candidate)
    : list candidate :=
  let networks := filter cache "cns/*/name" in
  fold_left
    (fun add '(key, _) =>
       let network := item (split "/" key) 1 in
       bysystem cache network provider profile version scope add)
    networks add.

(** [consumers(mode, network, node, context, profile, version, add)]. *)
Definition consumers (cache : object) (mode network node context profile : value)
    (version : string) (add : list candidate) : list candidate :=
  let provider := endpoint network node context in
  let scope := context in
  if strict_eq mode (str "allsystems") then
    allsystems cache provider profile version scope add
  else if strict_eq mode (str "bysystem") then
    bysystem cache network provider profile version scope add
  else add.

(** The body of the loop of [build] over the nodes of one network. *)
Definition build_network (cache : object) (mode network : value)
    (add : list candidate) : list candidate :=
  let ns1 := "cns/" ++ to_string network in
  let nodes := filter cache (ns1 ++ "/nodes/*/name") in
  fold_left
    (fun add '(key, _) =>
       let node := item (split "/" key) 3 in
       let ns2 := ns1 ++ "/nodes/" ++ to_string node in
       let contexts := filter cache (ns2 ++ "/contexts/*/name") in
       fold_left
         (fun add '(key, _) =>
            let context := item (split "/" key) 5 in
            let ns3 := ns2 ++ "/contexts/" ++ to_string context in
            let provider := filter cache (ns3 ++ "/provider/*/version") in
            fold_left
              (fun add '(key, version) =>
                 let profile := item (split "/" key) 7 in
                 consumers cache mode network node context profile version add)
              provider add)
         contexts add)
    nodes add.

(** The loop of [build] over the networks; [None] when the loop is left by
    the [return] of the mode test. *)
Fixpoint build_networks (cache : object) (networks : object)
    (add : list candidate) : option (list candidate) :=
  match networks with
  | [] => Some add
  | (key, _) :: networks' =>
      let network := item (split "/" key) 1 in
      let ns1 := "cns/" ++ to_string network in
      let mode := get cache (ns1 ++ "/orchestrator") in
      if negb (isValidMode mode) then None
      else build_networks cache networks' (build_network cache mode network add)
  end.

(** The candidates [build] hands to [connections], if it gets there. *)
Definition matchmaker (cache : object) : option (list candidate) :=
  build_networks cache (filter cache "cns/*/name") [].

Section Writer.

(** [short.generate()]: the id returned by the call number [n]. *)
Variable generate : nat -> string.

(** The loops that look for an existing record: the key of the first entry
    whose value is [target]. *)
Fixpoint find_record (records : object) (target : string) : option string :=
  match records with
  | [] => None
  | (key, v) :: records' =>
      if String.eqb v target then Some key else find_record records' target
  end.

Definition provider_records (cache : object) (c : candidate) : object :=
  filter cache (Candidate.provider c ++ "/provider/"
                ++ to_string (Candidate.profile c) ++ "/connections/*/consumer").

Definition consumer_records (cache : object) (c : candidate) : object :=
  filter cache (Candidate.consumer c ++ "/consumer/"
                ++ to_string (Candidate.profile c) ++ "/connections/*/provider").

(** The loop [properties[name] = props[key]] over one side's defaults. *)
Definition merge (properties props : object) : object :=
  fold_left
    (fun properties '(key, v) =>
       set properties (to_string (item (split "/" key) 9)) v)
    props properties.

(** [properties] after both loops. *)
Definition defaults (cache : object) (c : candidate) : object :=
  let propsp :=
    filter cache (Candidate.provider c ++ "/provider/"
                  ++ to_string (Candidate.profile c) ++ "/properties/*") in
  let propsc :=
    filter cache (Candidate.consumer c ++ "/consumer/"
                  ++ to_string (Candidate.profile c) ++ "/properties/*") in
  merge (merge [] propsp) propsc.

(** The puts of one side: the link, then every merged property. *)
Definition side (ns link target : string) (properties : object) : list write :=
  (ns ++ link, target)
  :: map (fun '(name, v) => (ns ++ "properties/" ++ name, v)) properties.

(** One turn of the loop of [connections], [next] being the number of ids
    generated so far. *)
Definition connection (cache : object) (c : candidate) (next : nat)
    : list write * nat :=
  let provider := provider_records cache c in
  let consumer := consumer_records cache c in
  let '(id, addp) :=
    match find_record provider (Candidate.consumer c) with
    | Some key => (item (split "/" key) 9, false)
    | None => (null, true)
    end in
  let '(id, addc) :=
    match find_record consumer (Candidate.provider c) with
    | Some key => (item (split "/" key) 9, false)
    | None => (id, true)
    end in
  if negb addp && negb addc then ([], next) else
  let properties := defaults cache c in
  let '(id, next) :=
    if strict_eq id null then (str (generate next), S next) else (id, next) in
  (((if addp then
      side (Candidate.provider c ++ "/provider/"
            ++ to_string (Candidate.profile c) ++ "/connections/"
            ++ to_string id ++ "/")
        "consumer" (Candidate.consumer c) properties
    else [])
   ++
   (if addc then
      side (Candidate.consumer c ++ "/consumer/"
            ++ to_string (Candidate.profile c) ++ "/connections/"
            ++ to_string id ++ "/")
        "provider" (Candidate.provider c) properties
    else []))%list,
   next).

(** [connections(add)]. *)
Fixpoint connections (cache : object) (add : list candidate) (next : nat)
    : list write * nat :=
  match add with
  | [] => ([], next)
  | c :: add' =>
      let '(ws, next) := connection cache c next in
      let '(ws', next) := connections cache add' next in
      ((ws ++ ws')%list, next)
  end.

(** [build()]. *)
Definition build (cache : object) (next : nat) : list write * nat :=
  match matchmaker cache with
  | Some add => connections cache add next
  | None => ([], next)
  end.

End Writer.

(** ** The event classifier *)

(** The calls a handler makes, in order. *)
Inductive call : Type :=
| Rebuild
| Update (key value : string)
| Propagate (key value : string).

(** The globals of the engine: the cache, the handle held in [timer] and
    the number of [setTimeout] calls made so far (a handle is the number of
    the call that returned it). *)
Record engine : Type :=
  { cache : object; timer : option nat; timeouts : nat }.

(** [rebuild()]: [cancel()], then [timer = setTimeout(...)]. *)
Definition rebuild (e : engine) : engine :=
  {| cache := cache e; timer := Some (timeouts e); timeouts := S (timeouts e) |}.

(** What one event handler leaves behind. *)
Record outcome : Type :=
  { state : engine; calls : list call; writes : list write }.

(** [onput(key, value)]. *)
Definition onput (e : engine) (key value : string) : outcome :=
  let parts := split "/" key in
  let root := item parts 0 in
  let network := item parts 1 in
  let property := item parts 2 in
  let role := item parts 6 in
  let capability := item parts 8 in
  let connection := item parts 10 in
  if negb (strict_eq root (str "cns")) || strict_eq network undefined
  then {| state := e; calls := []; writes := [] |}
  else
    let e :=
      {| cache := set (cache e) key value;
         timer := timer e; timeouts := timeouts e |} in
    let idle := {| state := e; calls := []; writes := [] |} in
    let rebuilt := {| state := rebuild e; calls := [Rebuild]; writes := [] |} in
    if strict_eq property (str "orchestrator") then rebuilt
    else if strict_eq property (str "nodes") then
      if strict_eq role (str "provider") || strict_eq role (str "consumer") then
        if strict_eq capability (str "version")
           || strict_eq capability (str "scope") then rebuilt
        else if strict_eq capability (str "connections") then
          if strict_eq connection (str "properties") then
            {| state := e; calls := [Update key value];
               writes := update (cache e) key value |}
          else idle
        else if strict_eq capability (str "properties") then
          {| state := e; calls := [Propagate key value];
             writes := propagate (cache e) key value |}
        else idle
      else idle
    else if strict_eq property (str "profiles") then rebuilt
    else idle.

(** ** Specification-side notions *)

(** Glob matching as the specification words it, with the class of
    characters a [*] may span left open: a [*] stands for any sequence of
    [span] characters, every other pattern character for itself up to
    letter case. *)
Inductive glob (span : ascii -> bool) : string -> string -> Prop :=
| glob_empty : glob span EmptyString EmptyString
| glob_char (c d : ascii) (p t : string) :
    c <> "*"%char -> RegExp.same_letter c d = true -> glob span p t ->
    glob span (String c p) (String d t)
| glob_star_none (p t : string) :
    glob span p t -> glob span (String "*" p) t
| glob_star_more (d : ascii) (p t : string) :
    span d = true -> glob span (String "*" p) t ->
    glob span (String "*" p) (String d t).

(** The span of [*] in the words of the specification: any character. *)
Definition any_character (c : ascii) : bool := true.

(** The span of [.] in the pattern [match] builds. *)
Definition no_line_terminator (c : ascii) : bool :=
  negb (RegExp.line_terminator c).

(** The wildcard-filter law, for a given span of [*]: the result holds
    exactly the entries of [M] whose key has as many segments as the
    pattern, each matching its pattern segment, with the values of [M]. *)
Definition filter_law (span : ascii -> bool) : Prop :=
  forall (M : object) (pattern : string),
    well_formed M ->
    well_formed (filter M pattern)
    /\ forall k v,
         In (k, v) (filter M pattern)
         <-> In (k, v) M
             /\ Forall2 (glob span) (split "/" pattern) (split "/" k).

(** A glob pattern read one character at a time: [*] is [.*], any other
    character stands for itself. *)
Fixpoint glob_terms (pattern : string) : list RegExp.term :=
  match pattern with
  | EmptyString => []
  | String c pattern' =>
      (if Ascii.eqb c "*" then RegExp.AnyStar else RegExp.Char c)
      :: glob_terms pattern'
  end.

(** The number of ['/'] in a key: one less than its number of segments. *)
Fixpoint slashes (s : string) : nat :=
  match s with
  | EmptyString => 0
  | String c s' => (if Ascii.eqb c "/" then 1 else 0) + slashes s'
  end.

(** A name that can stand as one segment of a key. *)
Definition segment (s : string) : Prop := slashes s = 0.

(** Every character of [s] is one a [*] may span. *)
Fixpoint spanned (span : ascii -> bool) (s : string) : bool :=
  match s with
  | EmptyString => true
  | String c s' => span c && spanned span s'
  end.

(** A name without line terminators. *)
Definition line_free (s : string) : Prop :=
  spanned no_line_terminator s = true.

(** The role that owns a property whose provider flag is [flag]: the
    provider when the flag is ["yes"], the consumer otherwise. *)
Definition owner (flag : value) : string :=
  if strict_eq flag (str "yes") then "provider" else "consumer".

(** The other role. *)
Definition opposite_of (role : string) : string :=
  if String.eqb role "provider" then "consumer" else "provider".

(** The mode [build] reads for a network. *)
Definition mode_of (cache : object) (network : value) : value :=
  get cache ("cns/" ++ to_string network ++ "/orchestrator").

(** The nodes of a network, the contexts of a node and the consumer
    capabilities of a context, as their [name] and [version] keys declare
    them. *)
Definition node_of (cache : object) (network node : value) : Prop :=
  exists key v,
    In (key, v) (filter cache ("cns/" ++ to_string network ++ "/nodes/*/name"))
    /\ item (split "/" key) 3 = node.

Definition context_of (cache : object) (network node context : value) : Prop :=
  exists key v,
    In (key, v) (filter cache ("cns/" ++ to_string network ++ "/nodes/"
                              ++ to_string node ++ "/contexts/*/name"))
    /\ item (split "/" key) 5 = context.

Definition consumes (cache : object) (consumer : string) (profile : value)
    (version : string) : Prop :=
  exists key,
    In (key, version)
       (filter cache (consumer ++ "/consumer/" ++ to_string profile
                      ++ "/version")).

(** Both ends of a candidate are prefixes of six segments,
    [cns/{network}/nodes/{node}/contexts/{context}], and its profile is one
    segment. *)
Definition shaped (c : candidate) : Prop :=
  slashes (Candidate.provider c) = 5 /\ slashes (Candidate.consumer c) = 5
  /\ segment (to_string (Candidate.profile c)).

(** The writes that make a new connection under the id [id]: the provider
    side, then the consumer side. *)
Definition new_connection (cache : object) (c : candidate) (id : string)
    : list write :=
  List.app
    (side (Candidate.provider c ++ "/provider/"
           ++ to_string (Candidate.profile c) ++ "/connections/" ++ id ++ "/")
       "consumer" (Candidate.consumer c) (defaults cache c))
    (side (Candidate.consumer c ++ "/consumer/"
           ++ to_string (Candidate.profile c) ++ "/connections/" ++ id ++ "/")
       "provider" (Candidate.provider c) (defaults cache c)).

(** The same for a list of candidates, the ids taken from the supply in
    order. *)
Fixpoint new_connections (generate : nat -> string) (cache : object)
    (add : list candidate) (next : nat) : list write :=
  match add with
  | [] => []
  | c :: add' =>
      List.app (new_connection cache c (generate next))
        (new_connections generate cache add' (S next))
  end.

(** Two caches that show the matchmaker the same networks, nodes, contexts,
    capabilities and modes: they agree on the keys of at most nine
    segments. *)
Definition agree (cache cache' : object) : Prop :=
  (forall pattern,
     slashes pattern <= 8 -> filter cache' pattern = filter cache pattern)
  /\ (forall key, slashes key <= 8 -> get cache' key = get cache key).

(** The default properties of the provider and of the consumer capability
    of a candidate, by property name. *)
Definition provider_defaults (cache : object) (c : candidate) : object :=
  merge []
    (filter cache (Candidate.provider c ++ "/provider/"
                   ++ to_string (Candidate.profile c) ++ "/properties/*")).

Definition consumer_defaults (cache : object) (c : candidate) : object :=
  merge []
    (filter cache (Candidate.consumer c ++ "/consumer/"
                   ++ to_string (Candidate.profile c) ++ "/properties/*")).

(** The union of two property maps in which the second takes precedence. *)
Definition union (first second : object) (name : string) : value :=
  match get second name with
  | str v => str v
  | _ => get first name
  end.

(** A record of the provider side of [c] that points at its consumer, and
    one of the consumer side that points at its provider. *)
Definition provider_side (cache : object) (c : candidate) : Prop :=
  exists key, In (key, Candidate.consumer c) (provider_records cache c).

Definition consumer_side (cache : object) (c : candidate) : Prop :=
  exists key, In (key, Candidate.provider c) (consumer_records cache c).

(** A candidate of which the cache holds no record on either side. *)
Definition unconnected (cache : object) (c : candidate) : Prop :=
  ~ provider_side cache c /\ ~ consumer_side cache c.

(** An id supply to run the scenarios with: [k], [xk], [xxk], ... *)
Fixpoint sample_ids (n : nat) : string :=
  match n with
  | O => "k"
  | S n' => String "x" (sample_ids n')
  end.

(** Scenario S5 of the specification: a connection [c1] between a provider
    in [A/X] and a consumer in [B/X], and a profile whose property [x] the
    provider owns. *)
Definition scenario_s5 : object :=
  [("cns/N/name", "N"); ("cns/N/orchestrator", "bysystem");
   ("cns/N/profiles/p1/versions/version1/properties/x/provider", "yes");
   ("cns/N/nodes/A/name", "A"); ("cns/N/nodes/A/contexts/X/name", "X");
   ("cns/N/nodes/A/contexts/X/provider/p1/version", "1");
   ("cns/N/nodes/A/contexts/X/provider/p1/connections/c1/consumer",
    "cns/N/nodes/B/contexts/X");
   ("cns/N/nodes/B/name", "B"); ("cns/N/nodes/B/contexts/X/name", "X");
   ("cns/N/nodes/B/contexts/X/consumer/p1/version", "1");
   ("cns/N/nodes/B/contexts/X/consumer/p1/connections/c1/provider",
    "cns/N/nodes/A/contexts/X")].

(** The same store before any mode was written for the network. *)
Definition scenario_s5_no_mode : object :=
  List.filter
    (fun '(k, _) => negb (String.eqb k "cns/N/orchestrator")) scenario_s5.

(** Scenario S6 of the specification: the provider of S5 with a second
    connection [c2], to a consumer in [C/X]. *)
Definition scenario_s6 : object :=
  (scenario_s5
   ++ [("cns/N/nodes/A/contexts/X/provider/p1/connections/c2/consumer",
        "cns/N/nodes/C/contexts/X");
       ("cns/N/nodes/C/name", "C"); ("cns/N/nodes/C/contexts/X/name", "X");
       ("cns/N/nodes/C/contexts/X/consumer/p1/version", "1");
       ("cns/N/nodes/C/contexts/X/consumer/p1/connections/c2/provider",
        "cns/N/nodes/A/contexts/X")])%list.

Definition scenario_s6_no_mode : object :=
  List.filter
    (fun '(k, _) => negb (String.eqb k "cns/N/orchestrator")) scenario_s6.

(** Scenario S2 of the specification: a provider in [A/X] and the only
    consumer of its profile and version in [B/Y]. *)
Definition scenario_s2 : object :=
  [("cns/N/name", "N"); ("cns/N/orchestrator", "bysystem");
   ("cns/N/nodes/A/name", "A"); ("cns/N/nodes/A/contexts/X/name", "X");
   ("cns/N/nodes/A/contexts/X/provider/p1/version", "1");
   ("cns/N/nodes/B/name", "B"); ("cns/N/nodes/B/contexts/Y/name", "Y");
   ("cns/N/nodes/B/contexts/Y/consumer/p1/version", "1")].

(** Scenario S1 of the specification, in a network [N2]: a provider in
    [A/X] and a consumer of the same profile and version in [B/X]. *)
Definition network_n2 : object :=
  [("cns/N2/name", "N2"); ("cns/N2/orchestrator", "bysystem");
   ("cns/N2/nodes/A/name", "A"); ("cns/N2/nodes/A/contexts/X/name", "X");
   ("cns/N2/nodes/A/contexts/X/provider/p1/version", "1");
   ("cns/N2/nodes/B/name", "B"); ("cns/N2/nodes/B/contexts/X/name", "X");
   ("cns/N2/nodes/B/contexts/X/consumer/p1/version", "1")].

(** A network whose mode is not one the orchestrator handles. *)
Definition network_n1 : object :=
  [("cns/N1/name", "N1"); ("cns/N1/orchestrator", "manual")].

(** The network [N2] once the writes of a first [build] have come back
    through the watcher. *)
Definition network_n2_connected : object :=
  apply_writes network_n2 (fst (build sample_ids network_n2 0)).

(** A provider in [A/X] connected to the consumer in [B/X] under the id
    [k1], and a consumer in [C/X] whose record for the same provider
    carries the same id [k1]. *)
Definition shared_id : object :=
  [("cns/N/name", "N"); ("cns/N/orchestrator", "bysystem");
   ("cns/N/nodes/A/name", "A"); ("cns/N/nodes/A/contexts/X/name", "X");
   ("cns/N/nodes/A/contexts/X/provider/p1/version", "1");
   ("cns/N/nodes/A/contexts/X/provider/p1/connections/k1/consumer",
    "cns/N/nodes/B/contexts/X");
   ("cns/N/nodes/B/name", "B"); ("cns/N/nodes/B/contexts/X/name", "X");
   ("cns/N/nodes/B/contexts/X/consumer/p1/version", "1");
   ("cns/N/nodes/B/contexts/X/consumer/p1/connections/k1/provider",
    "cns/N/nodes/A/contexts/X");
   ("cns/N/nodes/C/name", "C"); ("cns/N/nodes/C/contexts/X/name", "X");
   ("cns/N/nodes/C/contexts/X/consumer/p1/version", "1");
   ("cns/N/nodes/C/contexts/X/consumer/p1/connections/k1/provider",
    "cns/N/nodes/A/contexts/X")].

(** Scenario S4 of the specification: the pair of S1 with the default
    properties [{a:"p1", b:"p2"}] on the provider and [{b:"c2", c:"c3"}] on
    the consumer. *)
Definition scenario_s4 : object :=
  [("cns/N/name", "N"); ("cns/N/orchestrator", "bysystem");
   ("cns/N/nodes/A/name", "A"); ("cns/N/nodes/A/contexts/X/name", "X");
   ("cns/N/nodes/A/contexts/X/provider/p1/version", "1");
   ("cns/N/nodes/A/contexts/X/provider/p1/properties/a", "p1");
   ("cns/N/nodes/A/contexts/X/provider/p1/properties/b", "p2");
   ("cns/N/nodes/B/name", "B"); ("cns/N/nodes/B/contexts/X/name", "X");
   ("cns/N/nodes/B/contexts/X/consumer/p1/version", "1");
   ("cns/N/nodes/B/contexts/X/consumer/p1/properties/b", "c2");
   ("cns/N/nodes/B/contexts/X/consumer/p1/properties/c", "c3")].

(** Scenario S3 of the specification: mode [allsystems] in the network
    [N] of the provider, the consumer in the network [M]. *)
Definition scenario_s3 : object :=
  [("cns/M/name", "M"); ("cns/M/orchestrator", "bysystem");
   ("cns/M/nodes/B/name", "B"); ("cns/M/nodes/B/contexts/X/name", "X");
   ("cns/M/nodes/B/contexts/X/consumer/p1/version", "1");
   ("cns/N/name", "N"); ("cns/N/orchestrator", "allsystems");
   ("cns/N/nodes/A/name", "A"); ("cns/N/nodes/A/contexts/X/name", "X");
   ("cns/N/nodes/A/contexts/X/provider/p1/version", "1")].

(** ** The command line *)

Module Cli.

(** [config]. *)
Record configuration : Type :=
  { host : string; port : string; username : string; password : string }.

(** [options]. *)
Record flags : Type := { silent : bool; debug : bool }.

(** The globals [parse] works on; [colours] is what [colours.disable()]
    turns off. *)
Record globals : Type :=
  { config : configuration; options : flags; colours : bool }.

(** How a call ends: by returning, by [process.exit] after the lines given
    to [console.log], or by throwing an [Error] with a message. *)
Inductive result : Type :=
| Returned (g : globals)
| Exited (out : list string)
| Thrown (g : globals) (message : string).

Definition E_OPTION : string := "Illegal option".
Definition E_MISSING : string := "Missing argument".

(** The line feed of ['\n']. *)
Definition nl : string := String "010" EmptyString.

(** [print(text)]: the lines it adds to the console (the colour codes of
    [text.green] are left out). *)
Definition print (g : globals) (text : string) : list string :=
  if silent (options g) then [] else [text].

(** The texts [usage()] prints, in order. *)
Definition usage_lines : list string :=
  ["Usage: cns-orchestrator [options]" ++ nl;
   "Options:";
   "  -h, --help                    Output usage information";
   "  -v, --version                 Output version information";
   "  -H, --host                    Set network host";
   "  -P, --port                    Set network port";
   "  -u, --username                Set network username";
   "  -p, --password                Set network password";
   "  -m, --monochrome              Disable console colours";
   "  -s, --silent                  Disable console output";
   "  -d, --debug                   Enable debug output" ++ nl].

(** [usage()]. *)
Definition usage (g : globals) : list string :=
  flat_map (print g) usage_lines.

(** [next(arg, args)]: the error message, or the value and what is left of
    [args]. *)
Definition next (arg : string) (args : list string)
    : string + string * list string :=
  match args with
  | [] => inl (E_MISSING ++ ": " ++ arg)
  | v :: args' => inr (v, args')
  end.

(** [case a: case b:] of a [switch] on a string. *)
Definition either (arg a b : string) : bool :=
  String.eqb arg a || String.eqb arg b.

Definition set_host (g : globals) (v : string) : globals :=
  {| config := {| host := v; port := port (config g);
                  username := username (config g);
                  password := password (config g) |};
     options := options g; colours := colours g |}.

Definition set_port (g : globals) (v : string) : globals :=
  {| config := {| host := host (config g); port := v;
                  username := username (config g);
                  password := password (config g) |};
     options := options g; colours := colours g |}.

Definition set_username (g : globals) (v : string) : globals :=
  {| config := {| host := host (config g); port := port (config g);
                  username := v; password := password (config g) |};
     options := options g; colours := colours g |}.

Definition set_password (g : globals) (v : string) : globals :=
  {| config := {| host := host (config g); port := port (config g);
                  username := username (config g); password := v |};
     options := options g; colours := colours g |}.

Section Parse.

(** [pack.version], from [package.json]. *)
Variable pack_version : string.

(** [version()]. *)
Definition version (g : globals) : list string := print g pack_version.

(** [parse(args)], as [main] calls it: before [connect], when no timer is
    set and no client is open, so that [exit()] reaches [process.exit] at
    once.  The body of [next] stands at its four calls, for the recursion
    to be structural; [parse_next] has the calls back. *)
Fixpoint parse (args : list string) (g : globals) : result :=
  match args with
  | [] => Returned g
  | arg :: args' =>
      if either arg "-h" "--help" then Exited (usage g)
      else if either arg "-v" "--version" then Exited (version g)
      else if either arg "-H" "--host" then
        match args' with
        | [] => Thrown g (E_MISSING ++ ": " ++ arg)
        | v :: args'' => parse args'' (set_host g v)
        end
      else if either arg "-P" "--port" then
        match args' with
        | [] => Thrown g (E_MISSING ++ ": " ++ arg)
        | v :: args'' => parse args'' (set_port g v)
        end
      else if either arg "-u" "--username" then
        match args' with
        | [] => Thrown g (E_MISSING ++ ": " ++ arg)
        | v :: args'' => parse args'' (set_username g v)
        end
      else if either arg "-p" "--password" then
        match args' with
        | [] => Thrown g (E_MISSING ++ ": " ++ arg)
        | v :: args'' => parse args'' (set_password g v)
        end
      else if either arg "-m" "--monochrome" then
        parse args' {| config := config g; options := options g;
                       colours := false |}
      else if either arg "-s" "--silent" then
        parse args' {| config := config g;
                       options := {| silent := true;
                                     debug := debug (options g) |};
                       colours := colours g |}
      else if either arg "-d" "--debug" then
        parse args' {| config := config g;
                       options := {| silent := silent (options g);
                                     debug := true |};
                       colours := colours g |}
      else Thrown g (E_OPTION ++ ": " ++ arg)
  end.

End Parse.

(** The arguments [parse] knows. *)
Definition known : list string :=
  ["-h"; "--help"; "-v"; "--version"; "-H"; "--host"; "-P"; "--port";
   "-u"; "--username"; "-p"; "--password"; "-m"; "--monochrome";
   "-s"; "--silent"; "-d"; "--debug"].

(** The options that take a value. *)
Definition valued : list string :=
  ["-H"; "--host"; "-P"; "--port"; "-u"; "--username"; "-p"; "--password"].

(** The globals as the file sets them with an empty environment. *)
Definition initial : globals :=
  {| config := {| host := "127.0.0.1"; port := "2379";
                  username := ""; password := "" |};
     options := {| silent := false; debug := false |};
     colours := true |}.

End Cli.

(** ** Delete events and the stream of events *)

(** [delete o[k]]. *)
Fixpoint remove (o : object) (k : string) : object :=
  match o with
  | [] => []
  | (k', v) :: o' =>
      if String.eqb k' k then o' else (k', v) :: remove o' k
  end.

(** [ondelete(key, value)]: past the scope test and [delete cache[key]],
    every branch of its [switch] is empty. *)
Definition ondelete (e : engine) (key : string) (value : value) : outcome :=
  let parts := split "/" key in
  let root := item parts 0 in
  let network := item parts 1 in
  if negb (strict_eq root (str "cns")) || strict_eq network undefined
  then {| state := e; calls := []; writes := [] |}
  else
    {| state := {| cache := remove (cache e) key;
                   timer := timer e; timeouts := timeouts e |};
       calls := []; writes := [] |}.

(** What the watcher delivers. *)
Inductive event : Type :=
| Put (key value : string)
| Deleted (key : string).

(** The handlers [connect] binds to [put] and [delete]. *)
Definition handle (e : engine) (ev : event) : outcome :=
  match ev with
  | Put key value => onput e key value
  | Deleted key => ondelete e key (get (cache e) key)
  end.

(** The events of a list handled one after the other. *)
Fixpoint run (e : engine) (events : list event) : outcome :=
  match events with
  | [] => {| state := e; calls := []; writes := [] |}
  | ev :: events' =>
      let o := handle e ev in
      let o' := run (state o) events' in
      {| state := state o';
         calls := List.app (calls o) (calls o');
         writes := List.app (writes o) (writes o') |}
  end.

(** A key the handlers act on: its root is [cns] and it has a network
    segment. *)
Definition in_scope (key : string) : bool :=
  strict_eq (item (split "/" key) 0) (str "cns")
  && negb (strict_eq (item (split "/" key) 1) undefined).

(** What a store holds under [k] after the events, [v0] being there
    before. *)
Fixpoint replay (events : list event) (k : string) (v0 : value) : value :=
  match events with
  | [] => v0
  | Put key value :: events' =>
      replay events' k (if String.eqb key k then str value else v0)
  | Deleted key :: events' =>
      replay events' k (if String.eqb key k then undefined else v0)
  end.

(** ** The debounce timer *)

Module Timer.

(** The engine with the timeouts of the event loop that are set and have
    neither fired nor been cleared. *)
Record runtime : Type := { globals : engine; pending : list nat }.

(** [clearTimeout(h)]. *)
Definition clearTimeout (h : nat) (pending : list nat) : list nat :=
  List.filter (fun h' => negb (Nat.eqb h' h)) pending.

(** [cancel()]. *)
Definition cancel (r : runtime) : runtime :=
  match timer (globals r) with
  | Some h =>
      {| globals := {| cache := cache (globals r); timer := None;
                       timeouts := timeouts (globals r) |};
         pending := clearTimeout h (pending r) |}
  | None => r
  end.

(** [rebuild()]: [cancel()], then [timer = setTimeout(..., 1000)]. *)
Definition rebuild (r : runtime) : runtime :=
  let r := cancel r in
  let h := timeouts (globals r) in
  {| globals := {| cache := cache (globals r); timer := Some h;
                   timeouts := S h |};
     pending := h :: pending r |}.

Definition rebuilds (c : call) : bool :=
  match c with
  | Rebuild => true
  | _ => false
  end.

(** One event delivered: the handler runs, and the timeouts follow the
    [rebuild()] it calls. *)
Definition deliver (r : runtime) (ev : event) : runtime * list write :=
  let o := handle (globals r) ev in
  let r' :=
    if existsb rebuilds (calls o) then
      rebuild {| globals := {| cache := cache (state o);
                               timer := timer (globals r);
                               timeouts := timeouts (globals r) |};
                 pending := pending r |}
    else {| globals := state o; pending := pending r |} in
  (r', writes o).

Section Fire.

Variable generate : nat -> string.

(** The timeout [h] fires, if it is pending: the callback clears [timer]
    and runs [build()]; [next] counts the ids generated. *)
Definition fire (r : runtime) (h next : nat) : runtime * list write * nat :=
  if existsb (Nat.eqb h) (pending r) then
    let e := {| cache := cache (globals r); timer := None;
                timeouts := timeouts (globals r) |} in
    let '(ws, next') := build generate (cache e) next in
    ({| globals := e; pending := clearTimeout h (pending r) |}, ws, next')
  else (r, [], next).

(** What the event loop does next: it delivers an event of the watcher or
    lets a timeout fire. *)
Inductive turn : Type :=
| Deliver (ev : event)
| Fire (h : nat).

(** The turns of a list taken one after the other: the runtime they leave,
    the puts issued and the number of ids generated. *)
Fixpoint turns (r : runtime) (next : nat) (l : list turn)
    : runtime * list write * nat :=
  match l with
  | [] => (r, [], next)
  | Deliver ev :: l' =>
      let '(r', ws) := deliver r ev in
      let '(r'', ws', next') := turns r' next l' in
      (r'', List.app ws ws', next')
  | Fire h :: l' =>
      let '(r', ws, next') := fire r h next in
      let '(r'', ws', next'') := turns r' next' l' in
      (r'', List.app ws ws', next'')
  end.

End Fire.

(** The timeouts pending are the one [timer] holds, if any. *)
Definition coalesced (r : runtime) : Prop :=
  pending r = match timer (globals r) with
              | Some h => [h]
              | None => []
              end.

End Timer.

(** ** More specification-side notions *)

(** The networks a [name] key declares, and the provider capabilities of a
    context. *)
Definition network_of (cache : object) (network : value) : Prop :=
  exists key v,
    In (key, v) (filter cache "cns/*/name")
    /\ item (split "/" key) 1 = network.

Definition provides (cache : object) (provider : string) (profile : value)
    (version : string) : Prop :=
  exists key,
    In (key, version) (filter cache (provider ++ "/provider/*/version"))
    /\ item (split "/" key) 7 = profile.

(** The consumer end of a pair whose provider sits in [network], in the
    context named [context]: a context of that name, of a node of the same
    network in mode [bysystem] and of any network in mode [allsystems], in
    which the profile is consumed at the version. *)
Definition consumer_end (cache : object) (network context profile : value)
    (version consumer : string) : Prop :=
  exists network' node',
    (mode_of cache network = str "allsystems" /\ network_of cache network'
     \/ mode_of cache network = str "bysystem" /\ network' = network)
    /\ node_of cache network' node'
    /\ context_of cache network' node' context
    /\ consumes cache (endpoint network' node' context) profile version
    /\ consumer = endpoint network' node' context.

(** The pairs the matchmaker is after. *)
Definition paired (cache : object) (c : candidate) : Prop :=
  exists network node context,
    network_of cache network
    /\ node_of cache network node
    /\ context_of cache network node context
    /\ provides cache (endpoint network node context)
         (Candidate.profile c) (Candidate.version c)
    /\ Candidate.provider c = endpoint network node context
    /\ consumer_end cache network context (Candidate.profile c)
         (Candidate.version c) (Candidate.consumer c).

(** A pattern without [*]. *)
Fixpoint literal (pattern : string) : bool :=
  match pattern with
  | EmptyString => true
  | String c pattern' => negb (Ascii.eqb c "*") && literal pattern'
  end.

(** Two strings that are the same up to the case of their letters. *)
Fixpoint same_letters (a b : string) : bool :=
  match a, b with
  | EmptyString, EmptyString => true
  | String c a', String d b' => RegExp.same_letter c d && same_letters a' b'
  | _, _ => false
  end.

(** * Properties *)

(** ** Strings, [split] and objects *)

Module JsFacts.

Lemma append_assoc (a b c : string) : (a ++ b) ++ c = a ++ b ++ c.
Proof. induction a as [|x a IH]; simpl; [reflexivity | now rewrite IH]. Qed.

Lemma append_length (a b : string) :
  String.length (a ++ b) = String.length a + String.length b.
Proof. induction a as [|x a IH]; simpl; [reflexivity | now rewrite IH]. Qed.

Lemma append_inv_head (a b c : string) : a ++ b = a ++ c -> b = c.
Proof.
  induction a as [|x a IH]; simpl; intros H; [exact H|].
  injection H as H. now apply IH.
Qed.

(** Two concatenations that agree and end in equally long strings agree
    part by part. *)
Lemma append_inv_length (a b x y : string) :
  String.length x = String.length y -> a ++ x = b ++ y -> a = b /\ x = y.
Proof.
  intros Hlen. revert b.
  induction a as [|c a IH]; intros [|d b] H; simpl in H.
  - now split.
  - exfalso. apply (f_equal String.length) in H. simpl in H.
    rewrite append_length in H. lia.
  - exfalso. apply (f_equal String.length) in H. simpl in H.
    rewrite append_length in H. lia.
  - injection H as -> H. destruct (IH _ H) as [-> ->]. now split.
Qed.

Lemma split_not_nil (sep : ascii) (s : string) : split sep s <> [].
Proof.
  destruct s as [|c s]; simpl; [discriminate|].
  destruct (Ascii.eqb c sep); [discriminate|].
  destruct (split sep s); discriminate.
Qed.

(** The segments of [a + sep + b] are those of [a], then those of [b]. *)
Lemma split_app (sep : ascii) (a b : string) :
  split sep (a ++ String sep b) = (split sep a ++ split sep b)%list.
Proof.
  induction a as [|c a IH]; simpl.
  - now rewrite Ascii.eqb_refl.
  - destruct (Ascii.eqb c sep); [now rewrite IH|].
    rewrite IH. destruct (split sep a) as [|seg rest] eqn:E.
    + now destruct (split_not_nil sep a).
    + reflexivity.
Qed.

(** [s.split(sep).join(sep)] is [s]. *)
Lemma concat_split (sep : ascii) (s : string) :
  String.concat (String sep "") (split sep s) = s.
Proof.
  induction s as [|c s IH]; [reflexivity|].
  simpl. destruct (Ascii.eqb_spec c sep) as [->|Hc].
  - destruct (split sep s) as [|seg rest] eqn:E.
    + now destruct (split_not_nil sep s).
    + simpl. f_equal. exact IH.
  - destruct (split sep s) as [|seg rest] eqn:E.
    + now destruct (split_not_nil sep s).
    + destruct rest; simpl in *; now rewrite IH.
Qed.

Lemma slashes_app (a b : string) : slashes (a ++ b) = slashes a + slashes b.
Proof. induction a as [|c a IH]; simpl; [reflexivity | rewrite IH; lia]. Qed.

Lemma length_split (s : string) : List.length (split "/" s) = S (slashes s).
Proof.
  induction s as [|c s IH]; [reflexivity|].
  simpl. destruct (Ascii.eqb c "/"); simpl; [now rewrite IH|].
  destruct (split "/" s) as [|seg rest]; simpl in *; lia.
Qed.

(** The segments of a key hold no ['/']. *)
Lemma split_segments (s : string) : Forall segment (split "/" s).
Proof.
  induction s as [|c s IH]; simpl.
  - now constructor.
  - destruct (Ascii.eqb c "/") eqn:Hc.
    + constructor; [reflexivity | exact IH].
    + destruct (split "/" s) as [|seg rest] eqn:E.
      * now destruct (split_not_nil "/" s).
      * inversion IH; subst. constructor; [|assumption].
        unfold segment in *. simpl. now rewrite Hc.
Qed.

Lemma split_segment (s : string) : segment s -> split "/" s = [s].
Proof.
  unfold segment. induction s as [|c s IH]; [reflexivity|].
  simpl. destruct (Ascii.eqb c "/"); [discriminate|].
  intros H. now rewrite IH.
Qed.

Lemma item_segment (parts : list string) (n : nat) :
  Forall segment parts -> segment (to_string (item parts n)).
Proof.
  intros H. unfold item. destruct (nth_error parts n) as [s|] eqn:E.
  - rewrite Forall_forall in H. apply H. eapply nth_error_In; eauto.
  - reflexivity.
Qed.

Lemma key_item_segment (key : string) (n : nat) :
  segment (to_string (item (split "/" key) n)).
Proof. apply item_segment, split_segments. Qed.

(** *** Objects *)

Lemma strict_eq_str (s t : string) : strict_eq (str s) (str t) = String.eqb s t.
Proof. reflexivity. Qed.

Lemma get_set (o : object) (k v k' : string) :
  get (set o k v) k' = if String.eqb k k' then str v else get o k'.
Proof.
  induction o as [|[k0 v0] o IH]; simpl.
  - reflexivity.
  - destruct (String.eqb_spec k0 k) as [->|Hk]; simpl.
    + now destruct (String.eqb k k').
    + rewrite IH. destruct (String.eqb_spec k0 k') as [->|Hk'].
      * destruct (String.eqb_spec k k'); congruence.
      * reflexivity.
Qed.

Lemma get_set_same (o : object) (k v : string) : get (set o k v) k = str v.
Proof. now rewrite get_set, String.eqb_refl. Qed.

Lemma get_set_other (o : object) (k v k' : string) :
  k <> k' -> get (set o k v) k' = get o k'.
Proof. intros H. rewrite get_set. now destruct (String.eqb_spec k k'). Qed.

Lemma set_fresh (o : object) (k v : string) :
  ~ In k (keys o) -> set o k v = (o ++ [(k, v)])%list.
Proof.
  induction o as [|[k0 v0] o IH]; simpl; intros H; [reflexivity|].
  destruct (String.eqb_spec k0 k) as [->|Hk]; [tauto|].
  rewrite IH; tauto.
Qed.

Lemma keys_set (o : object) (k v k' : string) :
  In k' (keys (set o k v)) <-> k' = k \/ In k' (keys o).
Proof.
  induction o as [|[k0 v0] o IH]; simpl.
  - intuition congruence.
  - destruct (String.eqb_spec k0 k) as [->|Hk]; simpl; [|rewrite IH];
      intuition congruence.
Qed.

Lemma well_formed_set (o : object) (k v : string) :
  well_formed o -> well_formed (set o k v).
Proof.
  unfold well_formed.
  induction o as [|[k0 v0] o IH]; simpl; intros H.
  - constructor; [intros [] | constructor].
  - inversion H as [|? ? Hnot Ho]; subst.
    destruct (String.eqb_spec k0 k) as [->|Hk]; simpl.
    + now constructor.
    + constructor; [|now apply IH].
      intros Hin. apply keys_set in Hin. destruct Hin; congruence.
Qed.

Lemma get_in (o : object) (k v : string) : get o k = str v -> In (k, v) o.
Proof.
  induction o as [|[k0 v0] o IH]; simpl; [discriminate|].
  destruct (String.eqb_spec k0 k) as [->|Hk].
  - intros [= ->]. now left.
  - intros H. right. now apply IH.
Qed.

Lemma in_get (o : object) (k v : string) :
  well_formed o -> In (k, v) o -> get o k = str v.
Proof.
  unfold well_formed.
  induction o as [|[k0 v0] o IH]; simpl; intros Hwf Hin; [contradiction|].
  inversion Hwf as [|? ? Hnot Ho]; subst.
  destruct Hin as [[= -> ->]|Hin].
  - now rewrite String.eqb_refl.
  - destruct (String.eqb_spec k0 k) as [->|Hk].
    + exfalso. apply Hnot. change k with (fst (k, v)). now apply in_map.
    + now apply IH.
Qed.

Lemma get_not_null (o : object) (k : string) : strict_eq (get o k) null = false.
Proof.
  induction o as [|[k0 v0] o IH]; simpl; [reflexivity|].
  now destruct (String.eqb k0 k).
Qed.

Lemma apply_writes_app (o : object) (ws ws' : list write) :
  apply_writes o (ws ++ ws')%list = apply_writes (apply_writes o ws) ws'.
Proof. apply fold_left_app. Qed.

Lemma get_apply_writes_other (o : object) (ws : list write) (k : string) :
  ~ In k (map fst ws) -> get (apply_writes o ws) k = get o k.
Proof.
  unfold apply_writes. revert o.
  induction ws as [|[k1 v1] ws IH]; simpl; intros o H; [reflexivity|].
  rewrite IH by tauto. apply get_set_other. tauto.
Qed.

(** The last put on a key decides what the store holds there. *)
Lemma get_apply_writes_last (o : object) (ws ws' : list write) (k v : string) :
  ~ In k (map fst ws') ->
  get (apply_writes o (ws ++ (k, v) :: ws')%list) k = str v.
Proof.
  intros Hlast. rewrite apply_writes_app.
  change (apply_writes (apply_writes o ws) ((k, v) :: ws'))
    with (apply_writes (set (apply_writes o ws) k v) ws').
  rewrite get_apply_writes_other by exact Hlast. apply get_set_same.
Qed.

End JsFacts.

Import JsFacts.

(** ** The pattern of [match] *)

Module RegExpFacts.

Import RegExp.

(** A character [esc] leaves alone has no meaning of its own in a pattern. *)
Lemma plain_character (c : ascii) :
  escaped c = false ->
  Ascii.eqb c "$" = false /\ Ascii.eqb c "\" = false
  /\ Ascii.eqb c "." = false /\ syntax_character c = false.
Proof.
  destruct c as [[] [] [] [] [] [] [] []]; cbv; intros H;
    try discriminate H; repeat split.
Qed.

Lemma compile_body_escape (c : ascii) (s : string) :
  escaped c = true ->
  compile_body (String "\" (String c s))
  = option_map (cons (Char c)) (compile_body s).
Proof.
  intros H.
  change (compile_body (String "\" (String c s)))
    with (if escaped c then option_map (cons (Char c)) (compile_body s)
          else None).
  now rewrite H.
Qed.

Lemma compile_body_plain (c : ascii) (s : string) :
  escaped c = false ->
  compile_body (String c s) = option_map (cons (Char c)) (compile_body s).
Proof.
  intros H. destruct (plain_character c H) as (H1 & H2 & H3 & H4).
  cbn [compile_body]. now rewrite H1, H2, H3, H4.
Qed.

Lemma compile_body_any (s : string) :
  compile_body (".*" ++ s) = option_map (cons AnyStar) (compile_body s).
Proof. reflexivity. Qed.

Lemma concat_cons_app (sep a x : string) (l : list string) :
  String.concat sep ((a ++ x) :: l) = a ++ String.concat sep (x :: l).
Proof. destruct l; simpl; [reflexivity | apply append_assoc]. Qed.

(** The pattern [match] builds always compiles, to the terms of the glob
    pattern read character by character: the escapes leave every character
    but [*] to stand for itself. *)
Lemma source_compiles (filter : string) :
  compile (source filter) = Some (glob_terms filter).
Proof.
  unfold source. cbn.
  induction filter as [|c f IH].
  - reflexivity.
  - cbn [split glob_terms]. destruct (Ascii.eqb_spec c "*") as [->|Hc].
    + destruct (split "*" f) as [|seg rest] eqn:E.
      * now destruct (split_not_nil "*" f).
      * change (String.concat ".*" (map esc ("" :: seg :: rest)))
          with (".*" ++ String.concat ".*" (map esc (seg :: rest))).
        rewrite append_assoc, compile_body_any, IH. reflexivity.
    + destruct (split "*" f) as [|seg rest] eqn:E.
      * now destruct (split_not_nil "*" f).
      * cbn [map esc]. destruct (escaped c) eqn:Hesc.
        -- change (String "\" (String c (esc seg)))
             with (String "\" (String c "") ++ esc seg).
           rewrite concat_cons_app. cbn [append].
           rewrite compile_body_escape by exact Hesc.
           cbn [map] in IH. rewrite IH. reflexivity.
        -- change (String c (esc seg)) with (String c "" ++ esc seg).
           rewrite concat_cons_app. cbn [append].
           rewrite compile_body_plain by exact Hesc.
           cbn [map] in IH. rewrite IH. reflexivity.
Qed.

Lemma same_letter_refl (c : ascii) : same_letter c c = true.
Proof. apply Nat.eqb_refl. Qed.

Lemma test_nil (text : string) : test [] text = true <-> text = "".
Proof. destruct text; simpl; split; congruence. Qed.

Lemma test_any (r : list term) (text : string) :
  test (AnyStar :: r) text
  = test r text
    || match text with
       | EmptyString => false
       | String d text' =>
           negb (line_terminator d) && test (AnyStar :: r) text'
       end.
Proof. destruct text; reflexivity. Qed.

(** [test] on the terms of a glob pattern decides the glob relation in
    which [*] spans the characters [.] matches. *)
Lemma test_glob (pattern text : string) :
  test (glob_terms pattern) text = true
  <-> glob no_line_terminator pattern text.
Proof.
  split.
  - revert text. induction pattern as [|c p IH]; intros text.
    + intros H. apply test_nil in H. subst. constructor.
    + cbn [glob_terms]. destruct (Ascii.eqb_spec c "*") as [->|Hc].
      * induction text as [|d t IHt]; rewrite test_any; intros H.
        -- rewrite orb_false_r in H. apply glob_star_none, IH, H.
        -- apply orb_true_iff in H. destruct H as [H|H].
           ++ apply glob_star_none, IH, H.
           ++ apply andb_true_iff in H. destruct H as [Hd H].
              apply glob_star_more; [exact Hd | apply IHt, H].
      * destruct text as [|d t]; simpl; [discriminate|].
        intros H. apply andb_true_iff in H. destruct H as [Hcd H].
        apply glob_char; auto.
  - induction 1 as [|c d p t Hc Hcd _ IH|p t _ IH|d p t Hd _ IH].
    + reflexivity.
    + cbn [glob_terms]. apply Ascii.eqb_neq in Hc. rewrite Hc. simpl.
      now rewrite Hcd, IH.
    + cbn [glob_terms]. rewrite Ascii.eqb_refl, test_any.
      now rewrite IH.
    + cbn [glob_terms] in *. rewrite Ascii.eqb_refl in *. rewrite test_any.
      unfold no_line_terminator in Hd. rewrite Hd, IH. apply orb_true_r.
Qed.

End RegExpFacts.

(** ** [match], [compare] and [filter] *)

Lemma match_glob (text pattern : string) :
  match_ text pattern = true <-> glob no_line_terminator pattern text.
Proof.
  unfold match_. rewrite RegExpFacts.source_compiles.
  apply RegExpFacts.test_glob.
Qed.

Lemma compare_segments_spec (keys filters : list string) :
  List.length keys = List.length filters ->
  compare_segments keys filters = true
  <-> Forall2 (glob no_line_terminator) filters keys.
Proof.
  revert filters. induction keys as [|k keys IH]; intros [|f filters] Hlen;
    simpl in Hlen; try discriminate.
  - simpl. split; [constructor | reflexivity].
  - simpl. destruct (match_ k f) eqn:Hm.
    + rewrite IH by lia. split.
      * intros H. constructor; [now apply match_glob | exact H].
      * intros H. now inversion H.
    + split; [discriminate|]. intros H. inversion H as [|? ? ? ? Hg _]; subst.
      apply match_glob in Hg. congruence.
Qed.

(** [compare] holds exactly when the key has as many segments as there are
    filters and each segment matches its filter. *)
Lemma compare_spec (key : string) (filters : list string) :
  compare key filters = true
  <-> Forall2 (glob no_line_terminator) filters (split "/" key).
Proof.
  unfold compare.
  destruct (Nat.eqb_spec (List.length (split "/" key)) (List.length filters))
    as [Hlen|Hlen].
  - now apply compare_segments_spec.
  - split; [discriminate|]. intros H. apply Forall2_length in H. congruence.
Qed.

Lemma filter_fold (keys : object) (pattern : string) :
  filter keys pattern = fold_left (keep (split "/" pattern)) keys [].
Proof. reflexivity. Qed.

Lemma fold_keep_well_formed (filters : list string) (M acc : object) :
  well_formed acc -> well_formed (fold_left (keep filters) M acc).
Proof.
  revert acc. induction M as [|[k v] M IH]; simpl; intros acc H; [exact H|].
  apply IH. destruct (compare k filters); [now apply well_formed_set | exact H].
Qed.

Lemma fold_keep_fresh (filters : list string) (M acc : object) :
  NoDup (keys M) ->
  (forall k, In k (keys acc) -> ~ In k (keys M)) ->
  fold_left (keep filters) M acc
  = (acc ++ List.filter (fun '(k, _) => compare k filters) M)%list.
Proof.
  revert acc. induction M as [|[k v] M IH]; simpl; intros acc Hnd Hacc.
  - now rewrite app_nil_r.
  - inversion Hnd as [|? ? Hk HM]; subst.
    destruct (compare k filters).
    + rewrite set_fresh by (intros Hin; apply (Hacc _ Hin); now left).
      rewrite IH; [now rewrite <- app_assoc | exact HM |].
      intros k' Hin Hin'. unfold keys in Hin. rewrite map_app in Hin.
      apply in_app_iff in Hin. destruct Hin as [Hin|[<-|[]]].
      * apply (Hacc _ Hin). now right.
      * now apply Hk.
    + apply IH; [exact HM|]. intros k' Hin Hin'. apply (Hacc _ Hin). now right.
Qed.

(** On an object, [filter] keeps the entries whose key passes [compare],
    in order. *)
Lemma filter_well_formed (M : object) (pattern : string) :
  well_formed M ->
  filter M pattern
  = List.filter (fun '(k, _) => compare k (split "/" pattern)) M.
Proof.
  intros H. rewrite filter_fold, fold_keep_fresh; [reflexivity | exact H |].
  intros k [].
Qed.

Lemma in_set (o : object) (k v k0 v0 : string) :
  In (k, v) (set o k0 v0) -> (k = k0 /\ v = v0) \/ In (k, v) o.
Proof.
  induction o as [|[k1 v1] o IH]; simpl.
  - intros [[= <- <-]|[]]. now left.
  - destruct (String.eqb_spec k1 k0) as [->|Hk]; simpl.
    + intros [[= <- <-]|H]; [now left | now right; right].
    + intros [H|H]; [now right; left|]. apply IH in H. tauto.
Qed.

(** Whatever [filter] returns passed [compare] and comes from the object. *)
Lemma fold_keep_in (filters : list string) (M acc : object) (k v : string) :
  In (k, v) (fold_left (keep filters) M acc) ->
  In (k, v) acc \/ (In (k, v) M /\ compare k filters = true).
Proof.
  revert acc. induction M as [|[k0 v0] M IH]; simpl; intros acc H.
  - now left.
  - apply IH in H. destruct H as [H|[H1 H2]]; [|now right; split; [right|]].
    destruct (compare k0 filters) eqn:Hc; [|now left].
    apply in_set in H. destruct H as [[-> ->]|H]; [|now left].
    right. split; [now left | exact Hc].
Qed.

Lemma filter_in (M : object) (pattern k v : string) :
  In (k, v) (filter M pattern) ->
  In (k, v) M /\ compare k (split "/" pattern) = true.
Proof.
  intros H. apply fold_keep_in in H. destruct H as [[]|H]. exact H.
Qed.

(** Closes [well_formed] on an object given by its entries. *)
Ltac well_formed_entries :=
  unfold well_formed; simpl;
  repeat (constructor; [simpl; intuition discriminate|]); constructor.

(** C7 (as amended): on every object [M] and pattern, [filter] returns
    exactly the entries of [M] whose key, split on ['/'], has as many
    segments as the pattern and whose segments each match the pattern
    segment, where [*] stands for any possibly empty sequence of characters
    other than line terminators, every other pattern character stands for
    itself, and letter case is ignored; the values are those of [M]. *)
Theorem filter_glob (M : object) (pattern : string) :
  well_formed M ->
  well_formed (filter M pattern)
  /\ forall k v,
       In (k, v) (filter M pattern)
       <-> In (k, v) M
           /\ Forall2 (glob no_line_terminator)
                (split "/" pattern) (split "/" k).
Proof.
  intros HM. split.
  - rewrite filter_fold. apply fold_keep_well_formed. constructor.
  - intros k v. rewrite filter_well_formed by exact HM.
    rewrite filter_In, compare_spec. reflexivity.
Qed.

Lemma filter_glob_witness :
  let M := [("cns/n1/name", "one"); ("cns/n2/NAME", "two");
            ("cns/n2/nodes/a/name", "a")] in
  well_formed M
  /\ (well_formed (filter M "cns/*/name")
      /\ forall k v,
           In (k, v) (filter M "cns/*/name")
           <-> In (k, v) M
               /\ Forall2 (glob no_line_terminator)
                    (split "/" "cns/*/name") (split "/" k)).
Proof.
  intros M.
  assert (HM : well_formed M) by (subst M; well_formed_entries).
  split; [exact HM | exact (filter_glob M "cns/*/name" HM)].
Defined.

(** C7 (as stated) fails: with [*] standing for any sequence of characters
    the law asks [filter] to keep a one-segment key that holds a line feed
    under the pattern [*], and [filter] drops it. *)
Lemma filter_any_character_counterexample : ~ filter_law any_character.
Proof.
  intros law.
  pose (k := String "a" (String "010" (String "b" ""))).
  assert (HM : well_formed [(k, "v")]) by well_formed_entries.
  destruct (law [(k, "v")] "*" HM) as [_ H].
  assert (Hin : In (k, "v") (filter [(k, "v")] "*")).
  { apply H. split; [now left|]. cbn. constructor; [|constructor].
    repeat (apply glob_star_more; [reflexivity|]).
    apply glob_star_none. constructor. }
  vm_compute in Hin. exact Hin.
Qed.

(** ** Keys given by their segments *)

Lemma concat_app (sep : string) (l1 l2 : list string) :
  l1 <> [] -> l2 <> [] ->
  String.concat sep (l1 ++ l2)
  = String.concat sep l1 ++ sep ++ String.concat sep l2.
Proof.
  intros H1 H2. induction l1 as [|x l1 IH]; [congruence|].
  destruct l1 as [|y l1].
  - destruct l2; [congruence | reflexivity].
  - change (String.concat sep ((x :: y :: l1) ++ l2))
      with (x ++ sep ++ String.concat sep ((y :: l1) ++ l2)).
    rewrite IH by discriminate.
    change (String.concat sep (x :: y :: l1))
      with (x ++ sep ++ String.concat sep (y :: l1)).
    now rewrite !append_assoc.
Qed.

(** The segments of a key written as segments joined by ['/']. *)
Lemma split_concat (segs : list string) :
  segs <> [] -> Forall segment segs ->
  split "/" (String.concat "/" segs) = segs.
Proof.
  induction segs as [|x segs IH]; [congruence|]. intros _ H.
  inversion H as [|? ? Hx Hsegs]; subst.
  destruct segs as [|y segs].
  - simpl. now apply split_segment.
  - change (String.concat "/" (x :: y :: segs))
      with (x ++ String "/" (String.concat "/" (y :: segs))).
    rewrite split_app, IH by (discriminate || assumption).
    now rewrite split_segment.
Qed.

(** Turns the hypotheses [segment s] at hand into the [Forall] that
    [split_concat] asks for. *)
Ltac segments := repeat (constructor; [assumption || reflexivity|]); constructor.

(** ** The event classifier *)

(** C10: a put event whose key does not start with the segment [cns], or
    has no second segment, leaves the engine as it is: the cache keeps
    every entry, no timer is set, no handler is called and nothing is
    written. *)
Theorem onput_outside_scope (e : engine) (key value : string) :
  item (split "/" key) 0 <> str "cns" \/ item (split "/" key) 1 = undefined ->
  onput e key value = {| state := e; calls := []; writes := [] |}.
Proof.
  intros H. unfold onput.
  destruct (strict_eq (item (split "/" key) 0) (str "cns")) eqn:Hroot.
  - destruct H as [H|H].
    + exfalso. apply H. destruct (item (split "/" key) 0) as [| |s];
        try discriminate. f_equal. now apply String.eqb_eq.
    + now rewrite H.
  - reflexivity.
Qed.

Lemma onput_outside_scope_witness :
  let e := {| cache := [("cns/N/name", "N")]; timer := None; timeouts := 0 |} in
  (item (split "/" "app/N/orchestrator") 0 <> str "cns"
   \/ item (split "/" "app/N/orchestrator") 1 = undefined)
  /\ onput e "app/N/orchestrator" "bysystem"
     = {| state := e; calls := []; writes := [] |}.
Proof.
  intros e.
  assert (H : item (split "/" "app/N/orchestrator") 0 <> str "cns"
              \/ item (split "/" "app/N/orchestrator") 1 = undefined)
    by (left; discriminate).
  split; [exact H | exact (onput_outside_scope e _ "bysystem" H)].
Defined.

(** A key that is the root alone has no network segment. *)
Example onput_root_only :
  let e := {| cache := []; timer := None; timeouts := 0 |} in
  onput e "cns" "x" = {| state := e; calls := []; writes := [] |}.
Proof. reflexivity. Qed.

(** Inside the scope the event reaches the cache. *)
Example onput_inside_scope :
  onput {| cache := []; timer := None; timeouts := 0 |}
        "cns/N/orchestrator" "bysystem"
  = {| state := {| cache := [("cns/N/orchestrator", "bysystem")];
                   timer := Some 0; timeouts := 1 |};
       calls := [Rebuild]; writes := [] |}.
Proof. reflexivity. Qed.

(** ** Direction of a property *)

Lemma isValidMode_spec (mode : value) :
  isValidMode mode = true <-> mode = str "allsystems" \/ mode = str "bysystem".
Proof.
  unfold isValidMode. destruct mode as [| |m]; simpl.
  - split; [discriminate | intros [H|H]; discriminate].
  - split; [discriminate | intros [H|H]; discriminate].
  - destruct (String.eqb_spec m "allsystems") as [->|H1]; [tauto|].
    destruct (String.eqb_spec m "bysystem") as [->|H2]; [tauto|].
    split; [discriminate | intros [[=]|[=]]; congruence].
Qed.

(** The resolver of the direction: the opposite role for the owner of the
    property, nothing for anybody else. *)
Lemma getOppositeRole_owner (role : string) (flag : value) :
  role = owner flag -> getOppositeRole (str role) flag = str (opposite_of role).
Proof.
  intros ->. unfold owner, getOppositeRole.
  destruct (strict_eq flag (str "yes")); reflexivity.
Qed.

Lemma getOppositeRole_other (role : string) (flag : value) :
  role <> owner flag -> getOppositeRole (str role) flag = null.
Proof.
  unfold owner, getOppositeRole. rewrite !strict_eq_str.
  destruct (strict_eq flag (str "yes")); intros H.
  - destruct (String.eqb_spec role "provider"); [congruence|].
    now destruct (String.eqb role "consumer").
  - destruct (String.eqb_spec role "provider"); [reflexivity|].
    destruct (String.eqb_spec role "consumer"); [congruence | reflexivity].
Qed.

(** ** [update] *)

(** C4 (as amended): a write of [v] at the connection-level property key
    of capability [ns], connection [id], property [p].  When the mode of
    the network is valid, the touched role owns [p] by the provider flag of
    (profile, version, [p]) and the link to the opposite endpoint exists,
    [update] puts [v] at exactly
    [other/opposite/profile/connections/id/properties/p]; when the touched
    role does not own [p], [update] puts nothing. *)
Theorem update_owner_write
    (cache : object) (network node context role profile id p v : string) :
  segment network -> segment node -> segment context -> segment role ->
  segment profile -> segment id -> segment p ->
  let ns := "cns/" ++ network ++ "/nodes/" ++ node ++ "/contexts/" ++ context
            ++ "/" ++ role ++ "/" ++ profile in
  let key := "cns/" ++ network ++ "/nodes/" ++ node ++ "/contexts/" ++ context
             ++ "/" ++ role ++ "/" ++ profile
             ++ "/connections/" ++ id ++ "/properties/" ++ p in
  let version := get cache (ns ++ "/version") in
  let flag :=
    get cache ("cns/" ++ network ++ "/profiles/" ++ profile
               ++ "/versions/version" ++ to_string version
               ++ "/properties/" ++ p ++ "/provider") in
  let opposite := opposite_of role in
  (isValidMode (get cache ("cns/" ++ network ++ "/orchestrator")) = true ->
   role = owner flag ->
   forall other,
     get cache (ns ++ "/connections/" ++ id ++ "/" ++ opposite) = str other ->
     update cache key v
     = [(other ++ "/" ++ opposite ++ "/" ++ profile ++ "/connections/" ++ id
         ++ "/properties/" ++ p, v)])
  /\ (role <> owner flag -> update cache key v = []).
Proof.
  intros Hn Hd Hc Hr Hf Hi Hp ns key version flag opposite.
  assert (Hsplit : split "/" key
                   = ["cns"; network; "nodes"; node; "contexts"; context; role;
                      profile; "connections"; id; "properties"; p]).
  { exact (split_concat
             ["cns"; network; "nodes"; node; "contexts"; context; role;
              profile; "connections"; id; "properties"; p]
             ltac:(discriminate) ltac:(segments)). }
  unfold update. rewrite Hsplit. cbn [item nth_error to_string].
  unfold capability_ns, flag_key. cbn [to_string].
  fold ns. fold version. fold flag.
  change (("cns/" ++ network) ++ "/orchestrator")
    with ("cns/" ++ network ++ "/orchestrator").
  split.
  - intros Hmode Hown other Hother. rewrite Hmode. cbn [negb].
    unfold version, flag. rewrite !get_not_null. fold version. fold flag.
    rewrite (getOppositeRole_owner _ _ Hown). cbn [strict_eq to_string].
    fold opposite. rewrite Hother. reflexivity.
  - intros Hown.
    destruct (negb (isValidMode _)); [reflexivity|].
    unfold version, flag. rewrite !get_not_null. fold version. fold flag.
    now rewrite (getOppositeRole_other _ _ Hown).
Qed.

Lemma update_owner_write_witness :
  update scenario_s5
    "cns/N/nodes/A/contexts/X/provider/p1/connections/c1/properties/x" "v"
  = [("cns/N/nodes/B/contexts/X/consumer/p1/connections/c1/properties/x", "v")]
  /\ update scenario_s5
       "cns/N/nodes/B/contexts/X/consumer/p1/connections/c1/properties/x" "v"
     = [].
Proof.
  split.
  - refine (proj1 (update_owner_write scenario_s5
                     "N" "A" "X" "provider" "p1" "c1" "x" "v"
                     eq_refl eq_refl eq_refl eq_refl eq_refl eq_refl eq_refl)
              eq_refl eq_refl "cns/N/nodes/B/contexts/X" eq_refl).
  - refine (proj2 (update_owner_write scenario_s5
                     "N" "B" "X" "consumer" "p1" "c1" "x" "v"
                     eq_refl eq_refl eq_refl eq_refl eq_refl eq_refl eq_refl)
              _).
    discriminate.
Defined.

(** C4 (as stated) fails: in a network without a valid mode the provider
    owns [x], the link to the consumer exists, and [update] puts nothing
    where the claim has it put [v] at the consumer's end. *)
Lemma update_without_mode_counterexample :
  let cache := scenario_s5_no_mode in
  let ns := "cns/N/nodes/A/contexts/X/provider/p1" in
  let flag :=
    get cache ("cns/N/profiles/p1/versions/version"
               ++ to_string (get cache (ns ++ "/version"))
               ++ "/properties/x/provider") in
  "provider" = owner flag
  /\ get cache (ns ++ "/connections/c1/" ++ opposite_of "provider")
     = str "cns/N/nodes/B/contexts/X"
  /\ update cache (ns ++ "/connections/c1/properties/x") "v" = [].
Proof. repeat split. Qed.

(** C9: without a version key for the capability, [update] goes on with
    the version [undefined]: the comparison with [null] does not catch a
    key that is missing from the cache.  The consumer then passes for the
    owner of the property and its write is put at the provider's end. *)
Theorem update_without_version :
  let cache :=
    [("cns/N/name", "N"); ("cns/N/orchestrator", "bysystem");
     ("cns/N/nodes/B/contexts/X/consumer/p1/connections/c1/provider",
      "cns/N/nodes/A/contexts/X")] in
  let ns := "cns/N/nodes/B/contexts/X/consumer/p1" in
  isValidMode (get cache "cns/N/orchestrator") = true
  /\ get cache (ns ++ "/version") = undefined
  /\ update cache (ns ++ "/connections/c1/properties/x") "v"
     = [("cns/N/nodes/A/contexts/X/provider/p1/connections/c1/properties/x",
         "v")].
Proof. repeat split. Qed.

(** ** [propagate] *)

Lemma glob_refl (span : ascii -> bool) (s : string) :
  span "*"%char = true -> glob span s s.
Proof.
  intros Hstar. induction s as [|c s IH]; [constructor|].
  destruct (Ascii.eqb_spec c "*") as [->|Hc].
  - apply glob_star_more; [exact Hstar | now apply glob_star_none].
  - apply glob_char; [exact Hc | apply RegExpFacts.same_letter_refl | exact IH].
Qed.

Lemma glob_star (span : ascii -> bool) (s : string) :
  spanned span s = true -> glob span "*" s.
Proof.
  induction s as [|c s IH]; simpl; intros H.
  - apply glob_star_none. constructor.
  - apply andb_true_iff in H. destruct H as [Hc Hs].
    apply glob_star_more; [exact Hc | now apply IH].
Qed.

Lemma Forall2_glob_refl (segs : list string) :
  Forall2 (glob no_line_terminator) segs segs.
Proof.
  induction segs; constructor; [now apply glob_refl | assumption].
Qed.

(** The keys of what [filter] returns. *)
Lemma fold_keep_keys (filters : list string) (M acc : object) (k : string) :
  In k (keys (fold_left (keep filters) M acc))
  <-> In k (keys acc) \/ (In k (keys M) /\ compare k filters = true).
Proof.
  revert acc. induction M as [|[k0 v0] M IH]; simpl; intros acc.
  - tauto.
  - rewrite IH. destruct (compare k0 filters) eqn:Hc.
    + rewrite keys_set. split.
      * intros [[->|H]|[H1 H2]]; auto.
      * intros [H|[[->|H1] H2]]; auto.
    + split.
      * intros [H|[H1 H2]]; auto.
      * intros [H|[[->|H1] H2]]; auto. congruence.
Qed.

Lemma filter_keys (M : object) (pattern k : string) :
  In k (keys (filter M pattern))
  <-> In k (keys M) /\ compare k (split "/" pattern) = true.
Proof.
  rewrite filter_fold, fold_keep_keys. simpl. tauto.
Qed.

Lemma get_keys (o : object) (k v : string) : get o k = str v -> In k (keys o).
Proof.
  intros H. apply get_in in H. change k with (fst (k, v)). now apply in_map.
Qed.

Lemma map_join_item (parts : list string) : map join_item (map str parts) = parts.
Proof. induction parts; simpl; congruence. Qed.

(** The key [propagate] derives from a record [a/b]: [a/properties/p]. *)
Lemma property_key_record (a b : string) (property : value) :
  segment b ->
  property_key (a ++ "/" ++ b) property
  = a ++ "/properties/" ++ join_item property.
Proof.
  intros Hb. unfold property_key, join, pop.
  change (a ++ "/" ++ b) with (a ++ String "/" b).
  rewrite split_app, (split_segment b Hb), (map_app str). cbn [map].
  rewrite removelast_last, map_app, map_join_item. cbn [map join_item].
  rewrite concat_app by (apply split_not_nil || discriminate).
  now rewrite (concat_split "/" a).
Qed.

Lemma opposite_of_segment (role : string) : segment (opposite_of role).
Proof. unfold opposite_of. now destruct (String.eqb role "provider"). Qed.

(** A record [ns/connections/id/opposite] passes the filter
    [ns/connections/*/opposite] when [id] is one segment without line
    terminators. *)
Lemma compare_record (ns id opposite : string) :
  segment id -> line_free id -> segment opposite ->
  compare (ns ++ "/connections/" ++ id ++ "/" ++ opposite)
          (split "/" (ns ++ "/connections/*/" ++ opposite)) = true.
Proof.
  intros Hid Hlf Hop. apply compare_spec.
  change (ns ++ "/connections/*/" ++ opposite)
    with (ns ++ String "/" (String.concat "/" ["connections"; "*"; opposite])).
  change (ns ++ "/connections/" ++ id ++ "/" ++ opposite)
    with (ns ++ String "/" (String.concat "/" ["connections"; id; opposite])).
  rewrite !split_app, !split_concat by (discriminate || segments).
  apply Forall2_app; [apply Forall2_glob_refl|].
  constructor; [now apply glob_refl|].
  constructor; [now apply glob_star|].
  constructor; [now apply glob_refl | constructor].
Qed.

Lemma property_key_link (ns id opposite p : string) :
  segment opposite ->
  property_key (ns ++ "/connections/" ++ id ++ "/" ++ opposite) (str p)
  = ns ++ "/connections/" ++ id ++ "/properties/" ++ p.
Proof.
  intros Hop.
  replace (ns ++ "/connections/" ++ id ++ "/" ++ opposite)
    with ((ns ++ "/connections/" ++ id) ++ "/" ++ opposite)
    by now rewrite !append_assoc.
  rewrite property_key_record by exact Hop. now rewrite !append_assoc.
Qed.

(** C5 (as amended): a write of [v] at the capability-level property key
    of capability [ns], property [p].  When the mode of the network is
    valid and the touched role owns [p], [propagate] issues one put of [v]
    per cache key matching [ns/connections/*/opposite] and no other: for a
    record [ns/connections/id/opposite] the put is at
    [ns/connections/id/properties/p], so that every connection id of the
    capability receives [v], and N records make N puts. *)
Theorem propagate_owner_write
    (cache : object) (network node context role profile p v : string) :
  segment network -> segment node -> segment context -> segment role ->
  segment profile -> segment p ->
  let ns := "cns/" ++ network ++ "/nodes/" ++ node ++ "/contexts/" ++ context
            ++ "/" ++ role ++ "/" ++ profile in
  let key := "cns/" ++ network ++ "/nodes/" ++ node ++ "/contexts/" ++ context
             ++ "/" ++ role ++ "/" ++ profile ++ "/properties/" ++ p in
  let version := get cache (ns ++ "/version") in
  let flag :=
    get cache ("cns/" ++ network ++ "/profiles/" ++ profile
               ++ "/versions/version" ++ to_string version
               ++ "/properties/" ++ p ++ "/provider") in
  let opposite := opposite_of role in
  let connections := filter cache (ns ++ "/connections/*/" ++ opposite) in
  isValidMode (get cache ("cns/" ++ network ++ "/orchestrator")) = true ->
  role = owner flag ->
  propagate cache key v
  = map (fun '(k, _) => (property_key k (str p), v)) connections
  /\ (forall id target,
        In (ns ++ "/connections/" ++ id ++ "/" ++ opposite, target) connections ->
        In (ns ++ "/connections/" ++ id ++ "/properties/" ++ p, v)
           (propagate cache key v))
  /\ (forall id target,
        segment id -> line_free id ->
        get cache (ns ++ "/connections/" ++ id ++ "/" ++ opposite) = str target ->
        In (ns ++ "/connections/" ++ id ++ "/properties/" ++ p, v)
           (propagate cache key v))
  /\ List.length (propagate cache key v) = List.length connections.
Proof.
  intros Hn Hd Hc Hr Hf Hp ns key version flag opposite connections Hmode Hown.
  assert (Hsplit : split "/" key
                   = ["cns"; network; "nodes"; node; "contexts"; context; role;
                      profile; "properties"; p]).
  { exact (split_concat
             ["cns"; network; "nodes"; node; "contexts"; context; role;
              profile; "properties"; p]
             ltac:(discriminate) ltac:(segments)). }
  assert (Heq : propagate cache key v
                = map (fun '(k, _) => (property_key k (str p), v)) connections).
  { unfold propagate. rewrite Hsplit. cbn [item nth_error to_string].
    unfold capability_ns, flag_key. cbn [to_string].
    fold ns. fold version. fold flag.
    change (("cns/" ++ network) ++ "/orchestrator")
      with ("cns/" ++ network ++ "/orchestrator").
    rewrite Hmode. cbn [negb].
    unfold version, flag. rewrite !get_not_null. fold version. fold flag.
    rewrite (getOppositeRole_owner _ _ Hown). reflexivity. }
  assert (Hrecord : forall id target,
             In (ns ++ "/connections/" ++ id ++ "/" ++ opposite, target)
                connections ->
             In (ns ++ "/connections/" ++ id ++ "/properties/" ++ p, v)
                (propagate cache key v)).
  { intros id target Hin. rewrite Heq.
    rewrite <- (property_key_link ns id opposite p)
      by apply opposite_of_segment.
    apply (in_map (fun '(k, _) => (property_key k (str p), v))) in Hin.
    exact Hin. }
  repeat split.
  - exact Heq.
  - exact Hrecord.
  - intros id target Hid Hlf Hget.
    assert (Hk : In (ns ++ "/connections/" ++ id ++ "/" ++ opposite)
                    (keys connections)).
    { apply filter_keys. split; [eapply get_keys; eauto|].
      apply compare_record; [exact Hid | exact Hlf | apply opposite_of_segment]. }
    apply in_map_iff in Hk. destruct Hk as [[k target'] [Hfst Hin]].
    simpl in Hfst. subst k. now apply (Hrecord id target').
  - rewrite Heq. apply length_map.
Qed.

Lemma propagate_owner_write_witness :
  propagate scenario_s6 "cns/N/nodes/A/contexts/X/provider/p1/properties/x" "v"
  = [("cns/N/nodes/A/contexts/X/provider/p1/connections/c1/properties/x", "v");
     ("cns/N/nodes/A/contexts/X/provider/p1/connections/c2/properties/x", "v")].
Proof.
  refine (eq_trans
            (proj1 (propagate_owner_write scenario_s6
                      "N" "A" "X" "provider" "p1" "x" "v"
                      eq_refl eq_refl eq_refl eq_refl eq_refl eq_refl
                      eq_refl eq_refl)) _).
  reflexivity.
Defined.

(** C5 (as stated) fails: in a network without a valid mode the provider
    owns [x] and has two connections, and [propagate] puts nothing. *)
Lemma propagate_without_mode_counterexample :
  let cache := scenario_s6_no_mode in
  let ns := "cns/N/nodes/A/contexts/X/provider/p1" in
  let flag :=
    get cache ("cns/N/profiles/p1/versions/version"
               ++ to_string (get cache (ns ++ "/version"))
               ++ "/properties/x/provider") in
  "provider" = owner flag
  /\ List.length (filter cache (ns ++ "/connections/*/" ++ opposite_of "provider"))
     = 2
  /\ propagate cache (ns ++ "/properties/x") "v" = [].
Proof. repeat split. Qed.

(** A record that matches the filter of [propagate] up to letter case, here
    one of the node [a], has the put under its own spelling. *)
Example propagate_case_variant :
  propagate
    [("cns/N/orchestrator", "bysystem");
     ("cns/N/profiles/p1/versions/version1/properties/x/provider", "yes");
     ("cns/N/nodes/A/contexts/X/provider/p1/version", "1");
     ("cns/N/nodes/a/contexts/X/provider/p1/connections/c1/consumer",
      "cns/N/nodes/B/contexts/X")]
    "cns/N/nodes/A/contexts/X/provider/p1/properties/x" "v"
  = [("cns/N/nodes/a/contexts/X/provider/p1/connections/c1/properties/x", "v")].
Proof. vm_compute. reflexivity. Qed.

(** ** The matchmaker *)

(** A loop that only pushes: what is in the array afterwards was there
    before or was pushed for some entry. *)
Lemma fold_left_pushes {A B : Type} (F : list A -> B -> list A)
    (P : B -> A -> Prop) (l : list B) (acc : list A) (c : A) :
  (forall acc x, In c (F acc x) <-> In c acc \/ P x c) ->
  In c (fold_left F l acc) <-> In c acc \/ exists x, In x l /\ P x c.
Proof.
  intros HF. revert acc. induction l as [|x l IH]; simpl; intros acc.
  - split; [tauto | intros [H|[x [[] _]]]; exact H].
  - rewrite IH, HF. split.
    + intros [[H|H]|[y [Hy H]]]; eauto.
    + intros [H|[y [[->|Hy] H]]]; eauto.
Qed.

Lemma fold_left_invariant {S B : Type} (Inv : S -> Prop) (F : S -> B -> S)
    (l : list B) (s : S) :
  (forall s x, Inv s -> Inv (F s x)) -> Inv s -> Inv (fold_left F l s).
Proof.
  intros HF. revert s. induction l as [|x l IH]; simpl; intros s H; auto.
Qed.

(** What [bysystem] leaves in [add]: what was there, and one candidate for
    every node of the network that has a context named like the scope in
    which the profile is consumed at the version. *)
Lemma bysystem_in (cache : object) (network : value) (provider : string)
    (profile : value) (version : string) (scope : value)
    (add : list candidate) (c : candidate) :
  In c (bysystem cache network provider profile version scope add)
  <-> In c add
      \/ exists node,
           node_of cache network node
           /\ context_of cache network node scope
           /\ consumes cache (endpoint network node scope) profile version
           /\ c = Candidate.make provider (endpoint network node scope)
                   profile version.
Proof.
  unfold bysystem.
  rewrite (fold_left_pushes _
             (fun (entry : string * string) c =>
                let node := item (split "/" (fst entry)) 3 in
                context_of cache network node scope
                /\ consumes cache (endpoint network node scope) profile version
                /\ c = Candidate.make provider (endpoint network node scope)
                        profile version)).
  - split.
    + intros [H|[[key v] [Hin (H1 & H2 & H3)]]]; [now left|]. right.
      exists (item (split "/" key) 3). repeat split; auto.
      now exists key, v.
    + intros [H|[node [[key [v [Hin <-]]] (H1 & H2 & H3)]]]; [now left|].
      right. exists (key, v). auto.
  - intros acc [key v]. cbn [fst].
    set (node := item (split "/" key) 3).
    rewrite (fold_left_pushes _
               (fun (entry : string * string) c =>
                  item (split "/" (fst entry)) 5 = scope
                  /\ consumes cache (endpoint network node scope) profile version
                  /\ c = Candidate.make provider (endpoint network node scope)
                          profile version)).
    + split.
      * intros [H|[[key' v'] [Hin (H1 & H2 & H3)]]]; [now left|]. right.
        repeat split; auto. now exists key', v'.
      * intros [H|[[key' [v' [Hin H1]]] [H2 H3]]]; [now left|].
        right. exists (key', v'). auto.
    + intros acc' [key' v']. cbn [fst].
      destruct (strict_eq (item (split "/" key') 5) scope) eqn:Hscope.
      * assert (Heq : item (split "/" key') 5 = scope).
        { destruct (item (split "/" key') 5), scope; try discriminate;
            try reflexivity. f_equal. now apply String.eqb_eq. }
        rewrite Heq.
        rewrite (fold_left_pushes _
                   (fun (entry : string * string) c =>
                      snd entry = version
                      /\ c = Candidate.make provider
                              (endpoint network node scope) profile version)).
        -- split.
           ++ intros [H|[[k w] [Hin [Hw Hc]]]]; [now left|]. right.
              simpl in Hw. subst w. repeat split; auto. now exists k.
           ++ intros [H|(_ & [k Hin] & Hc)]; [now left|]. right.
              exists (k, version). auto.
        -- intros acc'' [k w]. cbn [snd].
           destruct (String.eqb_spec w version) as [->|Hw].
           ++ rewrite in_app_iff. simpl. intuition congruence.
           ++ intuition congruence.
      * split; [now left|]. intros [H|[Heq _]]; [exact H|].
        rewrite Heq in Hscope. destruct scope; simpl in Hscope;
          try discriminate. now rewrite String.eqb_refl in Hscope.
Qed.

Lemma filter_length (M : object) (pattern k v : string) :
  In (k, v) (filter M pattern) -> slashes k = slashes pattern.
Proof.
  intros H. apply filter_in in H. destruct H as [_ H].
  apply compare_spec, Forall2_length in H. rewrite !length_split in H. lia.
Qed.

Lemma item_defined (key : string) (n : nat) :
  n <= slashes key -> exists s, item (split "/" key) n = str s.
Proof.
  intros H. unfold item.
  destruct (nth_error (split "/" key) n) as [s|] eqn:E; [now exists s|].
  apply nth_error_None in E. rewrite length_split in E. lia.
Qed.

(** The node of a [name] key is a name. *)
Lemma node_of_defined (cache : object) (network node : value) :
  node_of cache network node -> exists s, node = str s.
Proof.
  intros [key [v [Hin <-]]]. apply item_defined.
  apply filter_length in Hin. rewrite Hin, !slashes_app. simpl. lia.
Qed.


(** In scenario S2 the consumer of [p1] at version [1] sits in a context
    that is not named [X]. *)
Lemma scenario_s2_other_context (node context : string) :
  node_of scenario_s2 (str "N") (str node) ->
  context_of scenario_s2 (str "N") (str node) (str context) ->
  consumes scenario_s2
    ("cns/" ++ "N" ++ "/nodes/" ++ node ++ "/contexts/" ++ context)
    (str "p1") "1" ->
  context <> "X".
Proof.
  intros [key [v [Hin Hnode]]] [key' [v' [Hin' Hctx]]] [k Hc] ->.
  vm_compute in Hin.
  destruct Hin as [[= <- <-]|[[= <- <-]|[]]];
    vm_compute in Hnode; injection Hnode as <-;
    vm_compute in Hin'; destruct Hin' as [[= <- <-]|[]];
    vm_compute in Hctx; try discriminate Hctx.
  vm_compute in Hc. exact Hc.
Qed.


(** Scenario S2 through [build]: nothing is written. *)
Example build_scenario_s2 : build sample_ids scenario_s2 0 = ([], 0).
Proof. vm_compute. reflexivity. Qed.

(** Scenario S3 through [build]: the connection crosses the networks. *)
Example build_scenario_s3 :
  build sample_ids scenario_s3 0
  = ([("cns/N/nodes/A/contexts/X/provider/p1/connections/k/consumer",
       "cns/M/nodes/B/contexts/X");
      ("cns/M/nodes/B/contexts/X/consumer/p1/connections/k/provider",
       "cns/N/nodes/A/contexts/X")], 1).
Proof. vm_compute. reflexivity. Qed.

(** ** [build] and the mode of a network *)

(** The loop over the networks is left for good at the first network whose
    mode is not valid. *)
Lemma build_networks_invalid (cache networks : object) (add : list candidate) :
  (exists key v,
     In (key, v) networks
     /\ isValidMode (mode_of cache (item (split "/" key) 1)) = false) ->
  build_networks cache networks add = None.
Proof.
  revert add. induction networks as [|[key0 v0] networks IH]; intros add.
  - intros [key [v [[] _]]].
  - intros [key [v [Hin Hmode]]]. cbn [build_networks].
    change (get cache (("cns/" ++ to_string (item (split "/" key0) 1))
                       ++ "/orchestrator"))
      with (mode_of cache (item (split "/" key0) 1)).
    destruct (isValidMode (mode_of cache (item (split "/" key0) 1))) eqn:H0;
      [|reflexivity].
    cbn [negb]. apply IH. destruct Hin as [[= -> ->]|Hin]; [congruence|].
    now exists key, v.
Qed.

(** With one such network in the cache, [build] writes nothing at all. *)
Lemma build_invalid_network (generate : nat -> string) (cache : object)
    (next : nat) (key v : string) :
  In (key, v) (filter cache "cns/*/name") ->
  isValidMode (mode_of cache (item (split "/" key) 1)) = false ->
  build generate cache next = ([], next).
Proof.
  intros Hin Hmode. unfold build, matchmaker.
  rewrite build_networks_invalid; [reflexivity|]. now exists key, v.
Qed.

(** C8: the network [N2] alone has its pair matched and both sides of the
    connection written; with the network [N1] of invalid mode beside it,
    before or after it in the cache, [build] returns from the loop over
    the networks and writes nothing, for [N2] either. *)
Theorem build_returns_at_invalid_network :
  isValidMode (mode_of (network_n1 ++ network_n2)%list (str "N1")) = false
  /\ isValidMode (mode_of (network_n1 ++ network_n2)%list (str "N2")) = true
  /\ matchmaker network_n2
     = Some [Candidate.make "cns/N2/nodes/A/contexts/X"
               "cns/N2/nodes/B/contexts/X" (str "p1") "1"]
  /\ build sample_ids network_n2 0
     = ([("cns/N2/nodes/A/contexts/X/provider/p1/connections/k/consumer",
          "cns/N2/nodes/B/contexts/X");
         ("cns/N2/nodes/B/contexts/X/consumer/p1/connections/k/provider",
          "cns/N2/nodes/A/contexts/X")], 1)
  /\ (forall generate next,
        build generate (network_n1 ++ network_n2)%list next = ([], next))
  /\ (forall generate next,
        build generate (network_n2 ++ network_n1)%list next = ([], next)).
Proof.
  split; [reflexivity|]. split; [reflexivity|]. split; [reflexivity|].
  split; [reflexivity|]. split; intros generate next.
  - apply (build_invalid_network generate _ next "cns/N1/name" "N1");
      [vm_compute; tauto | reflexivity].
  - apply (build_invalid_network generate _ next "cns/N1/name" "N1");
      [vm_compute; tauto | reflexivity].
Qed.

(** ** The connection writer *)

Section WriterFacts.

Variable generate : nat -> string.

Lemma find_record_found (records : object) (target key : string) :
  In (key, target) records -> exists key', find_record records target = Some key'.
Proof.
  induction records as [|[k v] records IH]; simpl; [contradiction|].
  intros [[= -> ->]|H].
  - rewrite String.eqb_refl. now exists key.
  - destruct (String.eqb v target); [now exists k | now apply IH].
Qed.

Lemma find_record_in (records : object) (target key : string) :
  find_record records target = Some key -> In (key, target) records.
Proof.
  induction records as [|[k v] records IH]; simpl; [discriminate|].
  destruct (String.eqb_spec v target) as [->|Hv].
  - intros [= ->]. now left.
  - intros H. right. now apply IH.
Qed.

Lemma find_record_missing (records : object) (target : string) :
  (forall key, ~ In (key, target) records) -> find_record records target = None.
Proof.
  intros H. destruct (find_record records target) as [key|] eqn:E;
    [|reflexivity].
  apply find_record_in in E. now destruct (H key).
Qed.

(** [merge] lets the later assignment win. *)
Lemma get_merge (properties props : object) (name : string) :
  get (merge properties props) name = union properties (merge [] props) name.
Proof.
  revert properties.
  induction props as [|[key v] props IH]; intros properties.
  - reflexivity.
  - set (n := to_string (item (split "/" key) 9)).
    change (merge properties ((key, v) :: props))
      with (merge (set properties n v) props).
    change (merge [] ((key, v) :: props)) with (merge (set [] n v) props).
    rewrite IH. unfold union at 2. rewrite (IH (set [] n v)).
    unfold union. rewrite !get_set. simpl.
    destruct (get (merge [] props) name); try reflexivity;
      now destruct (String.eqb n name).
Qed.

Lemma merge_well_formed (properties props : object) :
  well_formed properties -> well_formed (merge properties props).
Proof.
  unfold merge. revert properties.
  induction props as [|[key v] props IH]; intros properties H; simpl;
    [exact H|].
  apply IH. now apply well_formed_set.
Qed.

(** [properties] is the union of the defaults of both sides in which the
    consumer takes precedence, and names each property once. *)
Lemma defaults_union (cache : object) (c : candidate) :
  well_formed (defaults cache c)
  /\ forall name,
       get (defaults cache c) name
       = union (provider_defaults cache c) (consumer_defaults cache c) name.
Proof.
  split.
  - unfold defaults. do 2 apply merge_well_formed. constructor.
  - intros name. unfold defaults. now rewrite get_merge.
Qed.

(** A candidate whose two records are in the cache is skipped. *)
Lemma connection_existing (cache : object) (c : candidate) (next : nat) :
  provider_side cache c -> consumer_side cache c ->
  connection generate cache c next = ([], next).
Proof.
  intros [kp Hp] [kc Hc]. unfold connection.
  destruct (find_record_found _ _ _ Hp) as [kp' ->].
  destruct (find_record_found _ _ _ Hc) as [kc' ->].
  reflexivity.
Qed.

Lemma connections_existing (cache : object) (add : list candidate) (next : nat) :
  (forall c, In c add -> provider_side cache c /\ consumer_side cache c) ->
  connections generate cache add next = ([], next).
Proof.
  induction add as [|c add IH]; simpl; intros H; [reflexivity|].
  destruct (H c (or_introl eq_refl)) as [Hp Hc].
  rewrite (connection_existing cache c next Hp Hc).
  rewrite IH; [reflexivity|]. intros c' Hin. apply H. now right.
Qed.

End WriterFacts.

Lemma item_not_null (parts : list string) (n : nat) :
  strict_eq (item parts n) null = false.
Proof. unfold item. now destruct (nth_error parts n). Qed.

Lemma in_get_iff (o : object) (k v : string) :
  well_formed o -> In (k, v) o <-> get o k = str v.
Proof. intros H. split; [now apply in_get | apply get_in]. Qed.


(** Scenario S4: the properties a new connection is written with. *)
Example defaults_scenario_s4 :
  defaults scenario_s4
    (Candidate.make "cns/N/nodes/A/contexts/X" "cns/N/nodes/B/contexts/X"
       (str "p1") "1")
  = [("a", "p1"); ("b", "c2"); ("c", "c3")].
Proof. vm_compute. reflexivity. Qed.


(** ** The shape of the candidates *)

Lemma slashes_endpoint (network node context : value) :
  segment (to_string network) -> segment (to_string node) ->
  segment (to_string context) -> slashes (endpoint network node context) = 5.
Proof.
  unfold segment, endpoint. intros Hn Hd Hc.
  rewrite !slashes_app, Hn, Hd, Hc. reflexivity.
Qed.

Lemma bysystem_shaped (cache : object) (network : value) (provider : string)
    (profile : value) (version : string) (scope : value)
    (add : list candidate) :
  segment (to_string network) -> segment (to_string scope) ->
  slashes provider = 5 -> segment (to_string profile) ->
  Forall shaped add ->
  Forall shaped (bysystem cache network provider profile version scope add).
Proof.
  intros Hn Hs Hp Hf Hadd. apply Forall_forall. intros c Hc.
  apply bysystem_in in Hc. destruct Hc as [Hc|[node (Hnode & _ & _ & ->)]].
  - rewrite Forall_forall in Hadd. now apply Hadd.
  - destruct Hnode as [key [v [_ <-]]]. split; [exact Hp|]. cbn.
    split; [|exact Hf]. apply slashes_endpoint; auto using key_item_segment.
Qed.

Lemma allsystems_shaped (cache : object) (provider : string) (profile : value)
    (version : string) (scope : value) (add : list candidate) :
  segment (to_string scope) -> slashes provider = 5 ->
  segment (to_string profile) ->
  Forall shaped add ->
  Forall shaped (allsystems cache provider profile version scope add).
Proof.
  intros Hs Hp Hf. unfold allsystems. apply fold_left_invariant.
  intros acc [key v] Hacc.
  apply bysystem_shaped; auto using key_item_segment.
Qed.

Lemma consumers_shaped (cache : object) (mode network node context profile : value)
    (version : string) (add : list candidate) :
  segment (to_string network) -> segment (to_string node) ->
  segment (to_string context) -> segment (to_string profile) ->
  Forall shaped add ->
  Forall shaped
    (consumers cache mode network node context profile version add).
Proof.
  intros Hn Hd Hc Hf Hadd. unfold consumers.
  destruct (strict_eq mode (str "allsystems")).
  - apply allsystems_shaped; auto using slashes_endpoint.
  - destruct (strict_eq mode (str "bysystem")); [|exact Hadd].
    apply bysystem_shaped; auto using slashes_endpoint.
Qed.

Lemma build_network_shaped (cache : object) (mode network : value)
    (add : list candidate) :
  segment (to_string network) ->
  Forall shaped add -> Forall shaped (build_network cache mode network add).
Proof.
  intros Hn. unfold build_network. apply fold_left_invariant.
  intros acc1 [key1 v1]. apply fold_left_invariant.
  intros acc2 [key2 v2]. apply fold_left_invariant.
  intros acc3 [key3 v3]. apply consumers_shaped; auto using key_item_segment.
Qed.

Lemma build_networks_shaped (cache networks : object)
    (add add' : list candidate) :
  Forall shaped add ->
  build_networks cache networks add = Some add' -> Forall shaped add'.
Proof.
  revert add. induction networks as [|[key v] networks IH]; intros add Hadd.
  - now intros [= <-].
  - cbn [build_networks]. destruct (negb (isValidMode _)); [discriminate|].
    apply IH. apply build_network_shaped; auto using key_item_segment.
Qed.

(** Every candidate the matchmaker emits has two six-segment ends. *)
Lemma matchmaker_shaped (cache : object) (add : list candidate) :
  matchmaker cache = Some add -> Forall shaped add.
Proof. apply build_networks_shaped. constructor. Qed.

(** ** The keys of a new connection *)

Lemma side_keys (ns link target : string) (properties : object) (k : string) :
  In k (map fst (side ns link target properties)) ->
  k = ns ++ link \/ exists name, k = ns ++ "properties/" ++ name.
Proof.
  unfold side. cbn [map fst]. intros [<-|H]; [now left|]. right.
  apply in_map_iff in H. destruct H as [[k' v] [<- H]].
  apply in_map_iff in H. destruct H as [[name w] [[= <- <-] _]].
  now exists name.
Qed.

(** The records of the two sides differ in their last segment. *)
Lemma link_keys_differ (a b : string) : a ++ "consumer" <> b ++ "provider".
Proof.
  intros H. apply append_inv_length in H; [|reflexivity].
  destruct H as [_ H]. discriminate H.
Qed.

(** ** A second [build] after a first one *)

(** In a key made of a six-segment prefix, a role, a profile,
    [connections] and an id, the id is the segment number 9, whatever
    follows. *)
Lemma connection_key_id (E role f id t : string) :
  slashes E = 5 -> segment role -> segment f -> segment id ->
  let key := (E ++ "/" ++ role ++ "/" ++ f ++ "/connections/" ++ id ++ "/")
             ++ t in
  item (split "/" key) 9 = str id /\ 10 <= slashes key.
Proof.
  intros HE Hr Hf Hi key. split.
  - unfold key. rewrite !append_assoc.
    change (E ++ "/" ++ role ++ "/" ++ f ++ "/connections/" ++ id ++ "/" ++ t)
      with (E ++ String "/" (role ++ String "/" (f ++ String "/"
              ("connections" ++ String "/" (id ++ String "/" t))))).
    rewrite !split_app, (split_segment role Hr), (split_segment f Hf),
      (split_segment id Hi), (split_segment "connections" eq_refl).
    unfold item. rewrite nth_error_app2 by (rewrite length_split; lia).
    rewrite length_split, HE. reflexivity.
  - unfold key. rewrite !slashes_app. simpl. lia.
Qed.

(** The keys a new connection is written under. *)
Lemma new_connection_keys (cache : object) (c : candidate) (id k : string) :
  In k (map fst (new_connection cache c id)) ->
  exists t,
    k = (Candidate.provider c ++ "/" ++ "provider" ++ "/"
         ++ to_string (Candidate.profile c) ++ "/connections/" ++ id ++ "/")
        ++ t
    \/ k = (Candidate.consumer c ++ "/" ++ "consumer" ++ "/"
            ++ to_string (Candidate.profile c) ++ "/connections/" ++ id ++ "/")
           ++ t.
Proof.
  unfold new_connection. rewrite map_app, in_app_iff.
  intros [H|H]; apply side_keys in H; destruct H as [->|[name ->]].
  - exists "consumer". now left.
  - exists ("properties/" ++ name). now left.
  - exists "provider". now right.
  - exists ("properties/" ++ name). now right.
Qed.

Lemma new_connection_key_id (cache : object) (c : candidate) (id k : string) :
  shaped c -> segment id ->
  In k (map fst (new_connection cache c id)) ->
  item (split "/" k) 9 = str id /\ 10 <= slashes k.
Proof.
  intros (HP & HC & Hf) Hid Hk.
  apply new_connection_keys in Hk. destruct Hk as [t [->| ->]].
  - now apply connection_key_id.
  - now apply connection_key_id.
Qed.

(** What the store holds under the two link keys once a new connection is
    written. *)
Lemma new_connection_links (cache store : object) (c : candidate) (id : string) :
  shaped c ->
  let store' := apply_writes store (new_connection cache c id) in
  get store' (Candidate.provider c ++ "/provider/"
              ++ to_string (Candidate.profile c)
              ++ "/connections/" ++ id ++ "/consumer")
  = str (Candidate.consumer c)
  /\ get store' (Candidate.consumer c ++ "/consumer/"
                 ++ to_string (Candidate.profile c)
                 ++ "/connections/" ++ id ++ "/provider")
     = str (Candidate.provider c).
Proof.
  intros (HP & HC & _) store'. unfold store', new_connection.
  set (f := to_string (Candidate.profile c)).
  set (P := Candidate.provider c) in *. set (C := Candidate.consumer c) in *.
  set (nsp := P ++ "/provider/" ++ f ++ "/connections/" ++ id ++ "/").
  set (nsc := C ++ "/consumer/" ++ f ++ "/connections/" ++ id ++ "/").
  assert (Hkp : P ++ "/provider/" ++ f ++ "/connections/" ++ id ++ "/consumer"
                = nsp ++ "consumer").
  { unfold nsp. now rewrite !append_assoc. }
  assert (Hkc : C ++ "/consumer/" ++ f ++ "/connections/" ++ id ++ "/provider"
                = nsc ++ "provider").
  { unfold nsc. now rewrite !append_assoc. }
  rewrite Hkp, Hkc. split.
  - apply (get_apply_writes_last store []). intros Hk.
    rewrite map_app in Hk. apply in_app_iff in Hk. destruct Hk as [Hk|Hk].
    + apply in_map_iff in Hk. destruct Hk as [[k v] [Hk Hin']].
      apply in_map_iff in Hin'. destruct Hin' as [[name w] [[= <- <-] _]].
      cbn [fst] in Hk. apply append_inv_head in Hk. discriminate Hk.
    + apply side_keys in Hk. destruct Hk as [Hk|[name Hk]].
      * now apply link_keys_differ in Hk.
      * apply (f_equal slashes) in Hk. unfold nsp, nsc in Hk.
        rewrite !slashes_app, HP, HC in Hk. simpl in Hk. lia.
  - unfold side at 2. apply get_apply_writes_last. intros Hk.
    apply in_map_iff in Hk. destruct Hk as [[k v] [Hk Hin']].
    apply in_map_iff in Hin'. destruct Hin' as [[name w] [[= <- <-] _]].
    cbn [fst] in Hk. apply append_inv_head in Hk. discriminate Hk.
Qed.

Section FirstRun.

Variable generate : nat -> string.

(** The ids of the supply are single segments without line terminators,
    and no id comes twice. *)
Hypothesis generate_segment : forall n, segment (generate n).
Hypothesis generate_line_free : forall n, line_free (generate n).
Hypothesis generate_injective : forall m n, generate m = generate n -> m = n.

Lemma connection_new (cache : object) (c : candidate) (next : nat) :
  unconnected cache c ->
  connection generate cache c next
  = (new_connection cache c (generate next), S next).
Proof.
  intros [Hp Hc]. unfold connection.
  rewrite (find_record_missing (provider_records cache c)
             (Candidate.consumer c))
    by (intros key H; apply Hp; now exists key).
  rewrite (find_record_missing (consumer_records cache c)
             (Candidate.provider c))
    by (intros key H; apply Hc; now exists key).
  reflexivity.
Qed.

Lemma connections_new (cache : object) (add : list candidate) (next : nat) :
  (forall c, In c add -> unconnected cache c) ->
  connections generate cache add next
  = (new_connections generate cache add next, List.length add + next).
Proof.
  revert next. induction add as [|c add IH]; intros next H; [reflexivity|].
  cbn [connections new_connections].
  rewrite connection_new by (apply H; now left).
  rewrite IH by (intros c' Hc'; apply H; now right).
  f_equal. simpl. lia.
Qed.

Lemma new_connections_key_id (cache : object) (add : list candidate)
    (next : nat) (k : string) :
  Forall shaped add ->
  In k (map fst (new_connections generate cache add next)) ->
  (exists j, next <= j /\ item (split "/" k) 9 = str (generate j))
  /\ 10 <= slashes k.
Proof.
  revert next. induction add as [|c add IH]; intros next Hadd; [intros []|].
  inversion Hadd as [|? ? Hc Hadd']; subst.
  cbn [new_connections]. rewrite map_app, in_app_iff. intros [Hk|Hk].
  - destruct (new_connection_key_id cache c (generate next) k Hc
                (generate_segment next) Hk) as [Hid Hlen].
    split; [|exact Hlen]. exists next. now split.
  - destruct (IH (S next) Hadd' Hk) as [[j [Hj Hid]] Hlen].
    split; [|exact Hlen]. exists j. split; [lia | exact Hid].
Qed.

(** After the writes of a first run the store holds both links of every
    candidate, under an id of the supply. *)
Lemma new_connections_links (cache : object) (add : list candidate)
    (c : candidate) (store : object) (next : nat) :
  Forall shaped add -> In c add ->
  let store' := apply_writes store (new_connections generate cache add next) in
  exists j,
    get store' (Candidate.provider c ++ "/provider/"
                ++ to_string (Candidate.profile c)
                ++ "/connections/" ++ generate j ++ "/consumer")
    = str (Candidate.consumer c)
    /\ get store' (Candidate.consumer c ++ "/consumer/"
                   ++ to_string (Candidate.profile c)
                   ++ "/connections/" ++ generate j ++ "/provider")
       = str (Candidate.provider c).
Proof.
  revert store next.
  induction add as [|c0 add IH]; intros store next Hadd Hin; [destruct Hin|].
  inversion Hadd as [|? ? Hc0 Hadd']; subst.
  cbn [new_connections]. cbv zeta. rewrite apply_writes_app.
  destruct Hin as [->|Hin].
  - exists next.
    assert (Hlater : forall t E role,
               slashes E = 5 -> segment role ->
               ~ In ((E ++ "/" ++ role ++ "/" ++ to_string (Candidate.profile c)
                      ++ "/connections/" ++ generate next ++ "/") ++ t)
                    (map fst (new_connections generate cache add (S next)))).
    { intros t E role HE Hrole Hk.
      apply new_connections_key_id in Hk; [|exact Hadd'].
      destruct Hk as [[j [Hj Hid]] _].
      destruct Hc0 as (_ & _ & Hf).
      destruct (connection_key_id E role _ (generate next) t HE Hrole Hf
                  (generate_segment next)) as [Hid' _].
      cbv zeta in Hid'. rewrite Hid' in Hid. injection Hid as Hid.
      apply generate_injective in Hid. lia. }
    destruct (new_connection_links cache store c (generate next) Hc0)
      as [Hp Hc].
    destruct Hc0 as (HP & HC & Hf).
    split.
    + rewrite get_apply_writes_other; [exact Hp|].
      replace (Candidate.provider c ++ "/provider/"
               ++ to_string (Candidate.profile c)
               ++ "/connections/" ++ generate next ++ "/consumer")
        with ((Candidate.provider c ++ "/" ++ "provider" ++ "/"
               ++ to_string (Candidate.profile c) ++ "/connections/"
               ++ generate next ++ "/") ++ "consumer")
        by now rewrite !append_assoc.
      now apply Hlater.
    + rewrite get_apply_writes_other; [exact Hc|].
      replace (Candidate.consumer c ++ "/consumer/"
               ++ to_string (Candidate.profile c)
               ++ "/connections/" ++ generate next ++ "/provider")
        with ((Candidate.consumer c ++ "/" ++ "consumer" ++ "/"
               ++ to_string (Candidate.profile c) ++ "/connections/"
               ++ generate next ++ "/") ++ "provider")
        by now rewrite !append_assoc.
      now apply Hlater.
  - apply (IH (apply_writes store (new_connection cache c0 (generate next)))
             (S next) Hadd' Hin).
Qed.

End FirstRun.

(** *** What the matchmaker sees of the cache *)

Lemma compare_slashes (k pattern : string) :
  slashes k <> slashes pattern -> compare k (split "/" pattern) = false.
Proof.
  intros H. unfold compare. rewrite !length_split.
  destruct (Nat.eqb_spec (S (slashes k)) (S (slashes pattern))); [lia|].
  reflexivity.
Qed.

Lemma fold_keep_set (filters : list string) (M acc : object) (k v : string) :
  compare k filters = false ->
  fold_left (keep filters) (set M k v) acc = fold_left (keep filters) M acc.
Proof.
  intros Hk. revert acc. induction M as [|[k0 v0] M IH]; intros acc; simpl.
  - now rewrite Hk.
  - destruct (String.eqb_spec k0 k) as [->|Hk0]; simpl.
    + now rewrite Hk.
    + apply IH.
Qed.

(** A put on a key that a pattern does not match is not seen through the
    pattern. *)
Lemma filter_apply_writes (M : object) (ws : list write) (pattern : string) :
  (forall k, In k (map fst ws) -> compare k (split "/" pattern) = false) ->
  filter (apply_writes M ws) pattern = filter M pattern.
Proof.
  revert M. induction ws as [|[k v] ws IH]; intros M H; [reflexivity|].
  change (apply_writes M ((k, v) :: ws)) with (apply_writes (set M k v) ws).
  rewrite IH by (intros k' Hk'; apply H; now right).
  rewrite !filter_fold. apply fold_keep_set. apply H. now left.
Qed.

Lemma agree_apply_writes (M : object) (ws : list write) :
  (forall k, In k (map fst ws) -> 10 <= slashes k) ->
  agree M (apply_writes M ws).
Proof.
  intros H. split.
  - intros pattern Hp. apply filter_apply_writes. intros k Hk.
    apply compare_slashes. specialize (H k Hk). lia.
  - intros key Hkey. apply get_apply_writes_other. intros Hk.
    specialize (H key Hk). lia.
Qed.

Lemma well_formed_apply_writes (M : object) (ws : list write) :
  well_formed M -> well_formed (apply_writes M ws).
Proof.
  revert M. induction ws as [|[k v] ws IH]; intros M H; [exact H|].
  apply IH. now apply well_formed_set.
Qed.

Lemma fold_left_ext {A B : Type} (F G : A -> B -> A) (l : list B) (acc : A) :
  (forall acc x, F acc x = G acc x) -> fold_left F l acc = fold_left G l acc.
Proof.
  intros H. revert acc. induction l as [|x l IH]; intros acc; simpl;
    [reflexivity|]. now rewrite H, IH.
Qed.

(** Closes a bound on the slashes of a pattern built from segments. *)
Ltac count_slashes :=
  unfold segment, endpoint in *; rewrite ?slashes_app;
  repeat match goal with
         | H : slashes _ = 0 |- _ => rewrite H
         end;
  simpl; lia.

Section Agree.

Variables cache cache' : object.
Hypothesis same : agree cache cache'.

Lemma agree_filter (pattern : string) :
  slashes pattern <= 8 -> filter cache' pattern = filter cache pattern.
Proof. apply same. Qed.

Lemma bysystem_agree (network : value) (provider : string) (profile : value)
    (version : string) (scope : value) (add : list candidate) :
  segment (to_string network) -> segment (to_string profile) ->
  bysystem cache' network provider profile version scope add
  = bysystem cache network provider profile version scope add.
Proof.
  intros Hn Hf. unfold bysystem.
  rewrite agree_filter by count_slashes.
  apply fold_left_ext. intros acc1 [key1 v1].
  pose proof (key_item_segment key1 3) as Hnode.
  rewrite agree_filter by count_slashes.
  apply fold_left_ext. intros acc2 [key2 v2].
  pose proof (key_item_segment key2 5) as Hcontext.
  destruct (strict_eq _ scope); [|reflexivity].
  rewrite agree_filter by count_slashes. reflexivity.
Qed.

Lemma allsystems_agree (provider : string) (profile : value)
    (version : string) (scope : value) (add : list candidate) :
  segment (to_string profile) ->
  allsystems cache' provider profile version scope add
  = allsystems cache provider profile version scope add.
Proof.
  intros Hf. unfold allsystems.
  rewrite agree_filter by (simpl; lia).
  apply fold_left_ext. intros acc [key v].
  apply bysystem_agree; auto using key_item_segment.
Qed.

Lemma consumers_agree (mode network node context profile : value)
    (version : string) (add : list candidate) :
  segment (to_string network) -> segment (to_string profile) ->
  consumers cache' mode network node context profile version add
  = consumers cache mode network node context profile version add.
Proof.
  intros Hn Hf. unfold consumers.
  rewrite allsystems_agree, bysystem_agree by assumption. reflexivity.
Qed.

Lemma build_network_agree (mode network : value) (add : list candidate) :
  segment (to_string network) ->
  build_network cache' mode network add = build_network cache mode network add.
Proof.
  intros Hn. unfold build_network.
  rewrite agree_filter by count_slashes.
  apply fold_left_ext. intros acc1 [key1 v1].
  pose proof (key_item_segment key1 3) as Hnode.
  rewrite agree_filter by count_slashes.
  apply fold_left_ext. intros acc2 [key2 v2].
  pose proof (key_item_segment key2 5) as Hcontext.
  rewrite agree_filter by count_slashes.
  apply fold_left_ext. intros acc3 [key3 v3].
  apply consumers_agree; auto using key_item_segment.
Qed.

Lemma build_networks_agree (networks : object) (add : list candidate) :
  build_networks cache' networks add = build_networks cache networks add.
Proof.
  revert add. induction networks as [|[key v] networks IH]; intros add;
    [reflexivity|].
  cbn [build_networks].
  pose proof (key_item_segment key 1) as Hnetwork.
  rewrite (proj2 same) by count_slashes.
  destruct (negb (isValidMode _)); [reflexivity|].
  rewrite build_network_agree by exact Hnetwork. apply IH.
Qed.

(** The matchmaker emits the same candidates on both caches. *)
Lemma matchmaker_agree : matchmaker cache' = matchmaker cache.
Proof.
  unfold matchmaker. rewrite agree_filter by (simpl; lia).
  apply build_networks_agree.
Qed.

End Agree.

(** A record the cache holds under a key passes the filter the key passes. *)
Lemma filter_record (M : object) (pattern k v : string) :
  well_formed M -> get M k = str v ->
  compare k (split "/" pattern) = true ->
  In (k, v) (filter M pattern).
Proof.
  intros HM Hget Hk. rewrite filter_well_formed by exact HM.
  apply filter_In. split; [now apply get_in | exact Hk].
Qed.

Lemma sample_ids_segment (n : nat) : segment (sample_ids n).
Proof. induction n; [reflexivity | exact IHn]. Qed.

Lemma sample_ids_line_free (n : nat) : line_free (sample_ids n).
Proof. induction n; [reflexivity | exact IHn]. Qed.

Lemma sample_ids_injective (m n : nat) : sample_ids m = sample_ids n -> m = n.
Proof.
  revert n. induction m as [|m IH]; intros [|n]; simpl; intros H;
    try discriminate H; [reflexivity|].
  injection H as H. f_equal. now apply IH.
Qed.

(** A first [build] on a cache without any record of its candidates
    connects them all, and the second [build], over the cache with the
    writes of the first, finds every record. *)
Lemma build_twice (generate : nat -> string) (cache : object)
    (add : list candidate) (next : nat) :
  (forall n, segment (generate n)) ->
  (forall n, line_free (generate n)) ->
  (forall m n, generate m = generate n -> m = n) ->
  well_formed cache ->
  matchmaker cache = Some add ->
  (forall c, In c add -> unconnected cache c) ->
  let first := build generate cache next in
  fst first = new_connections generate cache add next
  /\ build generate (apply_writes cache (fst first)) (snd first)
     = ([], snd first).
Proof.
  intros Hseg Hlf Hinj Hwf Hadd Hnew first.
  assert (Hfirst : first = (new_connections generate cache add next,
                            List.length add + next)).
  { unfold first, build. rewrite Hadd. now apply connections_new. }
  rewrite Hfirst. cbn [fst snd]. split; [reflexivity|].
  set (ws := new_connections generate cache add next).
  pose proof (matchmaker_shaped cache add Hadd) as Hshaped.
  assert (Hsame : agree cache (apply_writes cache ws)).
  { apply agree_apply_writes. intros k Hk.
    now apply (new_connections_key_id generate Hseg cache add next k Hshaped). }
  assert (Hwf' : well_formed (apply_writes cache ws))
    by now apply well_formed_apply_writes.
  unfold build. rewrite (matchmaker_agree _ _ Hsame), Hadd.
  apply connections_existing. intros c Hc.
  destruct (new_connections_links generate Hseg Hinj cache add c cache next
              Hshaped Hc) as [j [Hp Hcs]].
  fold ws in Hp, Hcs.
  rewrite Forall_forall in Hshaped. destruct (Hshaped c Hc) as (_ & _ & Hf).
  split.
  - eexists. unfold provider_records. apply filter_record; [exact Hwf' | exact Hp |].
    replace (Candidate.provider c ++ "/provider/"
             ++ to_string (Candidate.profile c)
             ++ "/connections/" ++ generate j ++ "/consumer")
      with ((Candidate.provider c ++ "/provider/"
             ++ to_string (Candidate.profile c))
            ++ "/connections/" ++ generate j ++ "/" ++ "consumer")
      by now rewrite !append_assoc.
    replace (Candidate.provider c ++ "/provider/"
             ++ to_string (Candidate.profile c) ++ "/connections/*/consumer")
      with ((Candidate.provider c ++ "/provider/"
             ++ to_string (Candidate.profile c))
            ++ "/connections/*/" ++ "consumer")
      by now rewrite !append_assoc.
    now apply compare_record.
  - eexists. unfold consumer_records. apply filter_record; [exact Hwf' | exact Hcs |].
    replace (Candidate.consumer c ++ "/consumer/"
             ++ to_string (Candidate.profile c)
             ++ "/connections/" ++ generate j ++ "/provider")
      with ((Candidate.consumer c ++ "/consumer/"
             ++ to_string (Candidate.profile c))
            ++ "/connections/" ++ generate j ++ "/" ++ "provider")
      by now rewrite !append_assoc.
    replace (Candidate.consumer c ++ "/consumer/"
             ++ to_string (Candidate.profile c) ++ "/connections/*/provider")
      with ((Candidate.consumer c ++ "/consumer/"
             ++ to_string (Candidate.profile c))
            ++ "/connections/*/" ++ "provider")
      by now rewrite !append_assoc.
    now apply compare_record.
Qed.

(** ** Both sides of a new connection *)



(** ** Idempotence of the writer *)




(** * Further properties *)

(** ** The command line *)

Module CliFacts.

Import Cli.

Section ParseFacts.

Variable pack_version : string.

(** [parse] at an option that takes a value is [next] and the setter of
    the option. *)
Lemma parse_next (opt : string) :
  In opt valued ->
  exists setter : globals -> string -> globals,
    In setter [set_host; set_port; set_username; set_password]
    /\ forall args g,
         parse pack_version (opt :: args) g
         = match next opt args with
           | inl message => Thrown g message
           | inr (v, args') => parse pack_version args' (setter g v)
           end.
Proof.
  intros H. simpl in H.
  destruct H as [<-|[<-|[<-|[<-|[<-|[<-|[<-|[<-|[]]]]]]]]].
  1, 2: exists set_host.
  3, 4: exists set_port.
  5, 6: exists set_username.
  7, 8: exists set_password.
  all: split; [simpl; tauto | intros [|v args] g; reflexivity].
Qed.

(** The arguments are read from left to right: what a prefix that is read
    to its end leaves behind is where the rest starts. *)
Lemma parse_app (a b : list string) (g g' : globals) :
  parse pack_version a g = Returned g' ->
  parse pack_version (a ++ b)%list g = parse pack_version b g'.
Proof.
  remember (List.length a) as n eqn:Hn.
  assert (Hle : List.length a <= n) by lia. clear Hn.
  revert a g Hle. induction n as [|n IH]; intros [|arg a] g Hle H;
    simpl in Hle; try lia.
  - now injection H as <-.
  - now injection H as <-.
  - cbn [parse app] in *.
    destruct (either arg "-h" "--help"); [discriminate H|].
    destruct (either arg "-v" "--version"); [discriminate H|].
    destruct (either arg "-H" "--host").
    { destruct a as [|v a]; [discriminate H|].
      cbn [app]. apply IH; [simpl in Hle; lia | exact H]. }
    destruct (either arg "-P" "--port").
    { destruct a as [|v a]; [discriminate H|].
      cbn [app]. apply IH; [simpl in Hle; lia | exact H]. }
    destruct (either arg "-u" "--username").
    { destruct a as [|v a]; [discriminate H|].
      cbn [app]. apply IH; [simpl in Hle; lia | exact H]. }
    destruct (either arg "-p" "--password").
    { destruct a as [|v a]; [discriminate H|].
      cbn [app]. apply IH; [simpl in Hle; lia | exact H]. }
    destruct (either arg "-m" "--monochrome").
    { apply IH; [lia | exact H]. }
    destruct (either arg "-s" "--silent").
    { apply IH; [lia | exact H]. }
    destruct (either arg "-d" "--debug").
    { apply IH; [lia | exact H]. }
    discriminate H.
Qed.

Lemma either_unknown (arg a b : string) :
  ~ In arg known -> In a known -> In b known -> either arg a b = false.
Proof.
  intros H Ha Hb. unfold either.
  destruct (String.eqb_spec arg a) as [->|_]; [tauto|].
  destruct (String.eqb_spec arg b) as [->|_]; [tauto|]. reflexivity.
Qed.

Lemma parse_unknown (arg : string) (rest : list string) (g : globals) :
  ~ In arg known ->
  parse pack_version (arg :: rest) g = Thrown g (E_OPTION ++ ": " ++ arg).
Proof.
  intros H. cbn [parse].
  rewrite !(either_unknown arg) by (exact H || (simpl; tauto)).
  reflexivity.
Qed.

End ParseFacts.

(** X1: [parse] reads the arguments from left to right: when it reads a
    list [a] to its end and returns, reading [a] followed by [b] is
    reading [b] with the globals that [a] left. *)
Theorem parse_sequence (pack_version : string) (a b : list string)
    (g g' : globals) :
  parse pack_version a g = Returned g' ->
  parse pack_version (a ++ b)%list g = parse pack_version b g'.
Proof. apply parse_app. Qed.

Lemma parse_sequence_witness :
  parse "1.0.0" (["-H"; "etcd.local"; "-d"] ++ ["-P"; "2380"])%list initial
  = parse "1.0.0" ["-P"; "2380"]
      {| config := {| host := "etcd.local"; port := "2379";
                      username := ""; password := "" |};
         options := {| silent := false; debug := true |};
         colours := true |}.
Proof.
  exact (parse_sequence "1.0.0" ["-H"; "etcd.local"; "-d"] ["-P"; "2380"]
           initial _ eq_refl).
Defined.

(** X2: an argument that is none of the options, met after arguments that
    were read to their end, makes [parse] throw [Illegal option: ] and the
    argument, with the globals as the arguments before it left them and
    whatever follows it. *)
Theorem parse_illegal_option (pack_version : string) (a rest : list string)
    (arg : string) (g g' : globals) :
  parse pack_version a g = Returned g' ->
  ~ In arg known ->
  parse pack_version (a ++ arg :: rest)%list g
  = Thrown g' ("Illegal option: " ++ arg).
Proof.
  intros Ha Harg. rewrite (parse_app pack_version a _ g g' Ha).
  now apply parse_unknown.
Qed.

Lemma parse_illegal_option_witness :
  parse "1.0.0" (["-s"] ++ "--verbose" :: ["-h"])%list initial
  = Thrown {| config := config initial;
              options := {| silent := true; debug := false |};
              colours := true |}
      ("Illegal option: " ++ "--verbose").
Proof.
  refine (parse_illegal_option "1.0.0" ["-s"] ["-h"] "--verbose"
            initial _ eq_refl _).
  simpl. intuition discriminate.
Defined.

(** X3: an option that takes a value and stands last, after arguments
    that were read to their end, makes [parse] throw [Missing argument: ]
    and the option. *)
Theorem parse_missing_argument (pack_version : string) (a : list string)
    (opt : string) (g g' : globals) :
  parse pack_version a g = Returned g' ->
  In opt valued ->
  parse pack_version (a ++ [opt])%list g
  = Thrown g' ("Missing argument: " ++ opt).
Proof.
  intros Ha Hopt. rewrite (parse_app pack_version a _ g g' Ha).
  simpl in Hopt.
  destruct Hopt as [<-|[<-|[<-|[<-|[<-|[<-|[<-|[<-|[]]]]]]]]]; reflexivity.
Qed.

Lemma parse_missing_argument_witness :
  parse "1.0.0" (["-d"] ++ ["--port"])%list initial
  = Thrown {| config := config initial;
              options := {| silent := false; debug := true |};
              colours := true |}
      ("Missing argument: " ++ "--port").
Proof.
  refine (parse_missing_argument "1.0.0" ["-d"] "--port" initial _ eq_refl _).
  simpl. tauto.
Defined.

(** X4: no option turns a flag back: [parse] leaves [silent] and [debug]
    set when they were, and the colours off when they were, however it
    ends; so nothing is printed after a [--silent], by [--help] or
    [--version] either. *)
Theorem parse_flags_kept (pack_version : string) (args : list string)
    (g : globals) :
  let kept g' :=
    (silent (options g) = true -> silent (options g') = true)
    /\ (debug (options g) = true -> debug (options g') = true)
    /\ (colours g = false -> colours g' = false) in
  match parse pack_version args g with
  | Returned g' => kept g'
  | Thrown g' _ => kept g'
  | Exited out => silent (options g) = true -> out = []
  end.
Proof.
  remember (List.length args) as n eqn:Hn.
  assert (Hle : List.length args <= n) by lia. clear Hn.
  revert args g Hle. induction n as [|n IH]; intros [|arg a] g Hle;
    simpl in Hle; try lia; try (cbn; tauto).
  assert (Hstep : forall a' g1,
             List.length a' <= n ->
             (silent (options g) = true -> silent (options g1) = true) ->
             (debug (options g) = true -> debug (options g1) = true) ->
             (colours g = false -> colours g1 = false) ->
             match parse pack_version a' g1 with
             | Returned g' | Thrown g' _ =>
                 (silent (options g) = true -> silent (options g') = true)
                 /\ (debug (options g) = true -> debug (options g') = true)
                 /\ (colours g = false -> colours g' = false)
             | Exited out => silent (options g) = true -> out = []
             end).
  { intros a' g1 Hlen Hs Hd Hc. specialize (IH a' g1 Hlen). cbv zeta in IH.
    destruct (parse pack_version a' g1); intuition. }
  cbv zeta. cbn [parse].
  destruct (either arg "-h" "--help").
  { unfold usage, print. intros ->. reflexivity. }
  destruct (either arg "-v" "--version").
  { unfold version, print. intros ->. reflexivity. }
  destruct (either arg "-H" "--host").
  { destruct a as [|v a]; [tauto|]. apply Hstep; simpl in *; auto; lia. }
  destruct (either arg "-P" "--port").
  { destruct a as [|v a]; [tauto|]. apply Hstep; simpl in *; auto; lia. }
  destruct (either arg "-u" "--username").
  { destruct a as [|v a]; [tauto|]. apply Hstep; simpl in *; auto; lia. }
  destruct (either arg "-p" "--password").
  { destruct a as [|v a]; [tauto|]. apply Hstep; simpl in *; auto; lia. }
  destruct (either arg "-m" "--monochrome").
  { apply Hstep; simpl in *; auto; lia. }
  destruct (either arg "-s" "--silent").
  { apply Hstep; simpl in *; auto; lia. }
  destruct (either arg "-d" "--debug").
  { apply Hstep; simpl in *; auto; lia. }
  tauto.
Qed.

(** X5: [-h] and [--help] end the run with the usage text on the console,
    [-v] and [--version] with the version, in both cases whatever comes
    after them, illegal options included; under [--silent] nothing is
    printed. *)
Theorem parse_help_version (pack_version : string) (a rest : list string)
    (g g' : globals) :
  parse pack_version a g = Returned g' ->
  (forall h, In h ["-h"; "--help"] ->
     parse pack_version (a ++ h :: rest)%list g
     = Exited (if silent (options g') then [] else usage_lines))
  /\ (forall v, In v ["-v"; "--version"] ->
        parse pack_version (a ++ v :: rest)%list g
        = Exited (if silent (options g') then [] else [pack_version])).
Proof.
  intros Ha. split.
  - intros h [<-|[<-|[]]]; rewrite (parse_app pack_version a _ g g' Ha);
      cbn [parse either String.eqb Ascii.eqb Bool.eqb orb]; unfold usage, print;
      destruct (silent (options g')); reflexivity.
  - intros v [<-|[<-|[]]]; rewrite (parse_app pack_version a _ g g' Ha);
      cbn [parse either String.eqb Ascii.eqb Bool.eqb orb]; unfold version, print;
      destruct (silent (options g')); reflexivity.
Qed.

Lemma parse_help_version_witness :
  parse "1.0.0" (["-m"] ++ "--help" :: ["--bogus"])%list initial
  = Exited usage_lines
  /\ parse "1.0.0" (["-s"] ++ "-v" :: ["--bogus"])%list initial = Exited [].
Proof.
  split.
  - exact (proj1 (parse_help_version "1.0.0" ["-m"] ["--bogus"] initial _
                    eq_refl) "--help" (or_intror (or_introl eq_refl))).
  - exact (proj2 (parse_help_version "1.0.0" ["-s"] ["--bogus"] initial _
                    eq_refl) "-v" (or_introl eq_refl)).
Defined.

End CliFacts.

(** ** Delete events and the mirror of the store *)

Lemma get_remove_other (o : object) (k k' : string) :
  k <> k' -> get (remove o k) k' = get o k'.
Proof.
  intros H. induction o as [|[k0 v0] o IH]; simpl; [reflexivity|].
  destruct (String.eqb_spec k0 k) as [->|Hk]; simpl.
  - now destruct (String.eqb_spec k k').
  - now rewrite IH.
Qed.

Lemma get_absent (o : object) (k : string) :
  ~ In k (keys o) -> get o k = undefined.
Proof.
  induction o as [|[k0 v0] o IH]; simpl; intros H; [reflexivity|].
  destruct (String.eqb_spec k0 k) as [->|Hk]; [tauto|]. apply IH. tauto.
Qed.

Lemma get_remove_same (o : object) (k : string) :
  well_formed o -> get (remove o k) k = undefined.
Proof.
  unfold well_formed. induction o as [|[k0 v0] o IH]; simpl; intros H;
    [reflexivity|].
  inversion H as [|? ? Hnot Ho]; subst.
  destruct (String.eqb_spec k0 k) as [->|Hk]; simpl.
  - now apply get_absent.
  - destruct (String.eqb_spec k0 k); [congruence|]. now apply IH.
Qed.

Lemma keys_remove (o : object) (k k' : string) :
  In k' (keys (remove o k)) -> In k' (keys o).
Proof.
  induction o as [|[k0 v0] o IH]; simpl; [tauto|].
  destruct (String.eqb k0 k); simpl; tauto.
Qed.

Lemma well_formed_remove (o : object) (k : string) :
  well_formed o -> well_formed (remove o k).
Proof.
  unfold well_formed. induction o as [|[k0 v0] o IH]; simpl; intros H;
    [constructor|].
  inversion H as [|? ? Hnot Ho]; subst.
  destruct (String.eqb k0 k); simpl; [exact Ho|].
  constructor; [|now apply IH]. intros Hin. apply Hnot.
  now apply keys_remove in Hin.
Qed.

(** In every branch of its dispatch [onput] leaves the cache it has set
    the key in. *)
Lemma onput_cache (e : engine) (key value : string) :
  cache (state (onput e key value))
  = if in_scope key then set (cache e) key value else cache e.
Proof.
  unfold onput, in_scope.
  destruct (strict_eq (item (split "/" key) 0) (str "cns")); simpl;
    [|reflexivity].
  destruct (strict_eq (item (split "/" key) 1) undefined); simpl;
    [reflexivity|].
  repeat match goal with
         | |- context [if ?b then _ else _] => destruct b; simpl
         end; reflexivity.
Qed.

Lemma ondelete_cache (e : engine) (key : string) (value : value) :
  cache (state (ondelete e key value))
  = if in_scope key then remove (cache e) key else cache e.
Proof.
  unfold ondelete, in_scope.
  destruct (strict_eq (item (split "/" key) 0) (str "cns")); simpl;
    [|reflexivity].
  now destruct (strict_eq (item (split "/" key) 1) undefined).
Qed.

Lemma handle_well_formed (e : engine) (ev : event) :
  well_formed (cache e) -> well_formed (cache (state (handle e ev))).
Proof.
  intros H. destruct ev as [key value|key]; cbn [handle].
  - rewrite onput_cache. destruct (in_scope key); [|exact H].
    now apply well_formed_set.
  - rewrite ondelete_cache. destruct (in_scope key); [|exact H].
    now apply well_formed_remove.
Qed.

(** X6: the cache mirrors the store.  From a cache that names no key
    twice, after any events of the watcher the cache holds under every key
    in scope what the last event on that key left in the store - the value
    put, nothing after a delete - and what it held before when no event
    touched the key; under a key out of scope it holds what it held. *)
Theorem run_mirrors_store (e : engine) (events : list event) (k : string) :
  well_formed (cache e) ->
  well_formed (cache (state (run e events)))
  /\ get (cache (state (run e events))) k
     = if in_scope k then replay events k (get (cache e) k)
       else get (cache e) k.
Proof.
  revert e. induction events as [|ev events IH]; intros e Hwf.
  - split; [exact Hwf|]. cbn. now destruct (in_scope k).
  - cbn [run state].
    destruct (IH (state (handle e ev)) (handle_well_formed e ev Hwf))
      as [Hwf' Hget].
    split; [exact Hwf'|]. rewrite Hget. clear IH Hget Hwf'.
    destruct ev as [key value|key]; cbn [handle replay].
    + rewrite onput_cache. destruct (String.eqb_spec key k) as [->|Hk].
      * destruct (in_scope k); [|reflexivity]. now rewrite get_set_same.
      * destruct (in_scope key); [|reflexivity].
        now rewrite get_set_other.
    + rewrite ondelete_cache. destruct (String.eqb_spec key k) as [->|Hk].
      * destruct (in_scope k); [|reflexivity]. now rewrite get_remove_same.
      * destruct (in_scope key); [|reflexivity].
        now rewrite get_remove_other.
Qed.

Lemma run_mirrors_store_witness :
  let e := {| cache := [("cns/N/name", "N")]; timer := None; timeouts := 0 |} in
  let events := [Put "cns/N/orchestrator" "bysystem"; Put "app/x" "1";
                 Deleted "cns/N/name"; Put "cns/N/orchestrator" "allsystems"] in
  well_formed (cache (state (run e events)))
  /\ get (cache (state (run e events))) "cns/N/orchestrator"
     = if in_scope "cns/N/orchestrator"
       then replay events "cns/N/orchestrator"
              (get (cache e) "cns/N/orchestrator")
       else get (cache e) "cns/N/orchestrator".
Proof.
  intros e events.
  assert (Hwf : well_formed (cache e)) by well_formed_entries.
  exact (run_mirrors_store e events "cns/N/orchestrator" Hwf).
Defined.

(** ** The debounce timer *)

Module TimerFacts.

Import Timer.

(** A handler changes the timer only through [rebuild()], which it calls
    at most once. *)
Lemma onput_timer (e : engine) (key value : string) :
  let o := onput e key value in
  (timer (state o), timeouts (state o))
  = if existsb rebuilds (calls o) then (Some (timeouts e), S (timeouts e))
    else (timer e, timeouts e).
Proof.
  unfold onput.
  destruct (negb (strict_eq (item (split "/" key) 0) (str "cns"))
            || strict_eq (item (split "/" key) 1) undefined);
    [reflexivity|].
  repeat match goal with
         | |- context [strict_eq ?a ?b] => destruct (strict_eq a b)
         end; reflexivity.
Qed.

Lemma handle_timer (e : engine) (ev : event) :
  let o := handle e ev in
  (timer (state o), timeouts (state o))
  = if existsb rebuilds (calls o) then (Some (timeouts e), S (timeouts e))
    else (timer e, timeouts e).
Proof.
  destruct ev as [key value|key]; cbn [handle].
  - apply onput_timer.
  - unfold ondelete.
    now destruct (negb (strict_eq (item (split "/" key) 0) (str "cns"))
                  || strict_eq (item (split "/" key) 1) undefined).
Qed.

(** [deliver] carries the engine as the handler leaves it. *)
Lemma deliver_globals (r : runtime) (ev : event) :
  globals (fst (deliver r ev)) = state (handle (globals r) ev).
Proof.
  unfold deliver. cbn [fst].
  pose proof (handle_timer (globals r) ev) as H. cbv zeta in H.
  destruct (existsb rebuilds (calls (handle (globals r) ev))).
  - injection H as Ht Hn. unfold rebuild, cancel. cbn [globals].
    destruct (timer (globals r)); cbn [globals cache timeouts];
      destruct (state (handle (globals r) ev)) as [c t m];
      cbn in *; now subst.
  - reflexivity.
Qed.

Lemma clearTimeout_single (h : nat) : clearTimeout h [h] = [].
Proof. unfold clearTimeout. simpl. now rewrite Nat.eqb_refl. Qed.

Lemma deliver_coalesced (r : runtime) (ev : event) :
  coalesced r -> coalesced (fst (deliver r ev)).
Proof.
  unfold coalesced, deliver. intros Hr. cbn [fst].
  pose proof (handle_timer (globals r) ev) as H. cbv zeta in H.
  destruct (existsb rebuilds (calls (handle (globals r) ev))).
  - unfold rebuild, cancel. cbn [globals timer].
    destruct (timer (globals r)) as [h|]; cbn [globals pending timer timeouts].
    + now rewrite Hr, clearTimeout_single.
    + now rewrite Hr.
  - cbn [globals pending]. injection H as -> _. exact Hr.
Qed.

Section FireFacts.

Variable generate : nat -> string.

Lemma fire_coalesced (r : runtime) (h next : nat) :
  coalesced r -> coalesced (fst (fst (fire generate r h next))).
Proof.
  unfold coalesced, fire. intros Hr.
  destruct (existsb (Nat.eqb h) (pending r)) eqn:Hh; [|exact Hr].
  destruct (build generate _ next) as [ws next']. cbn [fst globals pending timer].
  rewrite Hr in *. destruct (timer (globals r)) as [h'|]; [|reflexivity].
  simpl in Hh. rewrite orb_false_r in Hh. apply Nat.eqb_eq in Hh. subst h'.
  apply clearTimeout_single.
Qed.

Lemma turns_coalesced (r : runtime) (next : nat) (l : list turn) :
  coalesced r -> coalesced (fst (fst (turns generate r next l))).
Proof.
  revert r next. induction l as [|[ev|h] l IH]; intros r next Hr.
  - exact Hr.
  - cbn [turns]. pose proof (deliver_coalesced r ev Hr) as H1.
    destruct (deliver r ev) as [r' ws]. cbn [fst] in H1.
    specialize (IH r' next H1).
    destruct (turns generate r' next l) as [[r'' ws'] next']. exact IH.
  - cbn [turns]. pose proof (fire_coalesced r h next Hr) as H1.
    destruct (fire generate r h next) as [[r' ws] next']. cbn [fst] in H1.
    specialize (IH r' next' H1).
    destruct (turns generate r' next' l) as [[r'' ws'] next'']. exact IH.
Qed.

End FireFacts.

(** X7: the rebuilds are coalesced.  From a runtime in which the timeouts
    pending are the one [timer] holds, if any, every sequence of events
    delivered and timeouts fired leads to such a runtime: never are two
    builds scheduled; and an event whose handler calls [rebuild()] leaves
    pending the timeout it sets and no other. *)
Theorem rebuilds_coalesced (generate : nat -> string) (r : runtime)
    (next : nat) (l : list turn) :
  coalesced r ->
  let r' := fst (fst (turns generate r next l)) in
  coalesced r' /\ List.length (pending r') <= 1
  /\ forall ev,
       existsb rebuilds (calls (handle (globals r') ev)) = true ->
       pending (fst (deliver r' ev)) = [timeouts (globals r')].
Proof.
  intros Hr r'.
  assert (Hr' : coalesced r') by now apply turns_coalesced.
  split; [exact Hr'|]. split.
  - rewrite Hr'. destruct (timer (globals r')); simpl; lia.
  - intros ev Hev. unfold deliver. rewrite Hev. cbn [fst].
    unfold rebuild, cancel. cbn [globals timer].
    destruct (timer (globals r')) as [h|] eqn:Ht;
      cbn [globals pending timeouts]; rewrite Hr', Ht.
    + now rewrite clearTimeout_single.
    + reflexivity.
Qed.

Lemma rebuilds_coalesced_witness :
  let r := {| globals := {| cache := []; timer := None; timeouts := 0 |};
              pending := [] |} in
  let l := [Deliver (Put "cns/N/orchestrator" "bysystem");
            Deliver (Put "cns/N/profiles/p1/name" "p1");
            Deliver (Put "cns/N/nodes/A/contexts/X/provider/p1/version" "1")] in
  let r' := fst (fst (turns sample_ids r 0 l)) in
  coalesced r' /\ List.length (pending r') <= 1
  /\ forall ev,
       existsb rebuilds (calls (handle (globals r') ev)) = true ->
       pending (fst (deliver r' ev)) = [timeouts (globals r')].
Proof.
  intros r l. exact (rebuilds_coalesced sample_ids r 0 l eq_refl).
Defined.

(** Three events that each call [rebuild()] leave the third timeout
    pending alone. *)
Example three_rebuilds :
  pending
    (fst (fst (turns sample_ids
                 {| globals := {| cache := []; timer := None; timeouts := 0 |};
                    pending := [] |} 0
                 [Deliver (Put "cns/N/orchestrator" "bysystem");
                  Deliver (Put "cns/N/profiles/p1/name" "p1");
                  Deliver (Put "cns/N/nodes/A/contexts/X/provider/p1/version"
                             "1")])))
  = [2].
Proof. vm_compute. reflexivity. Qed.

End TimerFacts.

(** ** Property writes and the events they come back as *)

(** [update] at a key given by its segments, the tests against [null]
    that never hold left out. *)
Lemma update_split
    (cache : object) (network node context role profile id p v : string) :
  segment network -> segment node -> segment context -> segment role ->
  segment profile -> segment id -> segment p ->
  let ns := "cns/" ++ network ++ "/nodes/" ++ node ++ "/contexts/" ++ context
            ++ "/" ++ role ++ "/" ++ profile in
  let key := "cns/" ++ network ++ "/nodes/" ++ node ++ "/contexts/" ++ context
             ++ "/" ++ role ++ "/" ++ profile
             ++ "/connections/" ++ id ++ "/properties/" ++ p in
  let flag :=
    get cache ("cns/" ++ network ++ "/profiles/" ++ profile
               ++ "/versions/version" ++ to_string (get cache (ns ++ "/version"))
               ++ "/properties/" ++ p ++ "/provider") in
  let opposite := getOppositeRole (str role) flag in
  update cache key v
  = if negb (isValidMode (get cache ("cns/" ++ network ++ "/orchestrator")))
    then []
    else if strict_eq opposite null then []
    else [(to_string (get cache (ns ++ "/connections/" ++ id ++ "/"
                                 ++ to_string opposite))
           ++ "/" ++ to_string opposite ++ "/" ++ profile
           ++ "/connections/" ++ id ++ "/properties/" ++ p, v)].
Proof.
  intros Hn Hd Hc Hr Hf Hi Hp ns key flag opposite.
  assert (Hsplit : split "/" key
                   = ["cns"; network; "nodes"; node; "contexts"; context; role;
                      profile; "connections"; id; "properties"; p]).
  { exact (split_concat
             ["cns"; network; "nodes"; node; "contexts"; context; role;
              profile; "connections"; id; "properties"; p]
             ltac:(discriminate) ltac:(segments)). }
  unfold update. rewrite Hsplit. cbn [item nth_error to_string].
  unfold capability_ns, flag_key. cbn [to_string].
  fold ns. fold flag. fold opposite.
  change (("cns/" ++ network) ++ "/orchestrator")
    with ("cns/" ++ network ++ "/orchestrator").
  destruct (negb (isValidMode _)); [reflexivity|].
  rewrite get_not_null. unfold flag at 1. rewrite get_not_null.
  destruct (strict_eq opposite null); [reflexivity|].
  now rewrite get_not_null.
Qed.

(** The dispatch of [onput] at a connection-level property key. *)
Lemma onput_connection_property
    (e : engine) (network node context role profile id p v : string) :
  segment network -> segment node -> segment context -> segment role ->
  segment profile -> segment id -> segment p ->
  role = "provider" \/ role = "consumer" ->
  let key := "cns/" ++ network ++ "/nodes/" ++ node ++ "/contexts/" ++ context
             ++ "/" ++ role ++ "/" ++ profile
             ++ "/connections/" ++ id ++ "/properties/" ++ p in
  onput e key v
  = {| state := {| cache := set (cache e) key v; timer := timer e;
                   timeouts := timeouts e |};
       calls := [Update key v];
       writes := update (set (cache e) key v) key v |}.
Proof.
  intros Hn Hd Hc Hr Hf Hi Hp Hrole key.
  assert (Hsplit : split "/" key
                   = ["cns"; network; "nodes"; node; "contexts"; context; role;
                      profile; "connections"; id; "properties"; p]).
  { exact (split_concat
             ["cns"; network; "nodes"; node; "contexts"; context; role;
              profile; "connections"; id; "properties"; p]
             ltac:(discriminate) ltac:(segments)). }
  unfold onput. rewrite Hsplit. cbn [item nth_error].
  destruct Hrole as [-> | ->]; reflexivity.
Qed.

(** The dispatch of [onput] at a capability-level property key. *)
Lemma onput_capability_property
    (e : engine) (network node context role profile p v : string) :
  segment network -> segment node -> segment context -> segment role ->
  segment profile -> segment p ->
  role = "provider" \/ role = "consumer" ->
  let key := "cns/" ++ network ++ "/nodes/" ++ node ++ "/contexts/" ++ context
             ++ "/" ++ role ++ "/" ++ profile ++ "/properties/" ++ p in
  onput e key v
  = {| state := {| cache := set (cache e) key v; timer := timer e;
                   timeouts := timeouts e |};
       calls := [Propagate key v];
       writes := propagate (set (cache e) key v) key v |}.
Proof.
  intros Hn Hd Hc Hr Hf Hp Hrole key.
  assert (Hsplit : split "/" key
                   = ["cns"; network; "nodes"; node; "contexts"; context; role;
                      profile; "properties"; p]).
  { exact (split_concat
             ["cns"; network; "nodes"; node; "contexts"; context; role;
              profile; "properties"; p]
             ltac:(discriminate) ltac:(segments)). }
  unfold onput. rewrite Hsplit. cbn [item nth_error].
  destruct Hrole as [-> | ->]; reflexivity.
Qed.

Lemma get_set_slashes (cache : object) (k v k' : string) :
  slashes k <> slashes k' -> get (set cache k v) k' = get cache k'.
Proof. intros H. apply get_set_other. congruence. Qed.

(** The segment number 2 of a key that starts [cns/network/x/]. *)
Lemma third_segment (n x rest : string) :
  segment n -> segment x ->
  item (split "/" ("cns/" ++ n ++ "/" ++ x ++ "/" ++ rest)) 2 = str x.
Proof.
  intros Hn Hx.
  change ("cns/" ++ n ++ "/" ++ x ++ "/" ++ rest)
    with ("cns" ++ String "/" (n ++ String "/" (x ++ String "/" rest))).
  rewrite !split_app, (split_segment n Hn), (split_segment x Hx).
  reflexivity.
Qed.

(** A put under [cns/n/nodes/] is not seen at the flag of a profile. *)
Lemma get_set_profiles (cache : object) (n rest v n' rest' : string) :
  segment n -> segment n' ->
  get (set cache ("cns/" ++ n ++ "/nodes/" ++ rest) v)
      ("cns/" ++ n' ++ "/profiles/" ++ rest')
  = get cache ("cns/" ++ n' ++ "/profiles/" ++ rest').
Proof.
  intros Hn Hn'. apply get_set_other. intros H.
  apply (f_equal (fun k => item (split "/" k) 2)) in H.
  change ("cns/" ++ n ++ "/nodes/" ++ rest)
    with ("cns/" ++ n ++ "/" ++ "nodes" ++ "/" ++ rest) in H.
  change ("cns/" ++ n' ++ "/profiles/" ++ rest')
    with ("cns/" ++ n' ++ "/" ++ "profiles" ++ "/" ++ rest') in H.
  rewrite !third_segment in H by (assumption || reflexivity).
  discriminate H.
Qed.

Lemma opposite_of_not_owner (role : string) (flag : value) :
  role = owner flag -> opposite_of role <> owner flag.
Proof.
  intros ->. unfold owner, opposite_of.
  destruct (strict_eq flag (str "yes")); discriminate.
Qed.

Lemma owner_role (flag : value) :
  owner flag = "provider" \/ owner flag = "consumer".
Proof. unfold owner. destruct (strict_eq flag (str "yes")); tauto. Qed.

Lemma opposite_of_role (role : string) :
  opposite_of role = "provider" \/ opposite_of role = "consumer".
Proof. unfold opposite_of. destruct (String.eqb role "provider"); tauto. Qed.

(** X8: a connection-level write is forwarded once and not answered.
    Within one network of valid mode, when the role written at owns the
    property, the link to the opposite end exists and both ends have the
    same version, the put event at [key] makes [onput] issue the put of
    the value at the opposite end, and the event that put comes back as
    makes [onput] issue nothing: the opposite role does not own the
    property. *)
Theorem update_not_echoed
    (e : engine)
    (network node context role profile id p v node' context' : string) :
  segment network -> segment node -> segment context -> segment profile ->
  segment id -> segment p -> segment node' -> segment context' ->
  let opposite := opposite_of role in
  let ns := "cns/" ++ network ++ "/nodes/" ++ node ++ "/contexts/" ++ context
            ++ "/" ++ role ++ "/" ++ profile in
  let key := "cns/" ++ network ++ "/nodes/" ++ node ++ "/contexts/" ++ context
             ++ "/" ++ role ++ "/" ++ profile
             ++ "/connections/" ++ id ++ "/properties/" ++ p in
  let other := "cns/" ++ network ++ "/nodes/" ++ node' ++ "/contexts/"
               ++ context' in
  let ns' := "cns/" ++ network ++ "/nodes/" ++ node' ++ "/contexts/"
             ++ context' ++ "/" ++ opposite ++ "/" ++ profile in
  let key' := "cns/" ++ network ++ "/nodes/" ++ node' ++ "/contexts/"
              ++ context' ++ "/" ++ opposite ++ "/" ++ profile
              ++ "/connections/" ++ id ++ "/properties/" ++ p in
  let flag :=
    get (cache e)
      ("cns/" ++ network ++ "/profiles/" ++ profile
       ++ "/versions/version" ++ to_string (get (cache e) (ns ++ "/version"))
       ++ "/properties/" ++ p ++ "/provider") in
  isValidMode (get (cache e) ("cns/" ++ network ++ "/orchestrator")) = true ->
  role = owner flag ->
  get (cache e) (ns ++ "/connections/" ++ id ++ "/" ++ opposite) = str other ->
  get (cache e) (ns' ++ "/version") = get (cache e) (ns ++ "/version") ->
  let first := onput e key v in
  writes first = [(key', v)]
  /\ writes (onput (state first) key' v) = [].
Proof.
  intros Hn Hd Hc Hf Hi Hp Hd' Hc' opposite ns key other ns' key' flag
    Hmode Hown Hother Hver first.
  assert (Hrole : role = "provider" \/ role = "consumer")
    by (rewrite Hown; apply owner_role).
  assert (Hr : segment role) by (destruct Hrole as [-> | ->]; reflexivity).
  pose proof (opposite_of_role role) as Hopp. fold opposite in Hopp.
  assert (Ho : segment opposite)
    by (destruct Hopp as [-> | ->]; reflexivity).
  assert (Hkey : slashes key = 11) by (unfold key; count_slashes).
  assert (Hkey' : slashes key' = 11) by (unfold key'; count_slashes).
  set (cache1 := set (cache e) key v).
  (* what the first event leaves to read *)
  assert (H1mode : get cache1 ("cns/" ++ network ++ "/orchestrator")
                   = get (cache e) ("cns/" ++ network ++ "/orchestrator")).
  { apply get_set_slashes. rewrite Hkey. count_slashes. }
  assert (H1ver : get cache1 (ns ++ "/version")
                  = get (cache e) (ns ++ "/version")).
  { apply get_set_slashes. rewrite Hkey. unfold ns. count_slashes. }
  assert (H1ver' : get cache1 (ns' ++ "/version")
                   = get (cache e) (ns' ++ "/version")).
  { apply get_set_slashes. rewrite Hkey. unfold ns'. count_slashes. }
  assert (H1flag : forall version,
             get cache1 ("cns/" ++ network ++ "/profiles/" ++ profile
                         ++ "/versions/version" ++ version
                         ++ "/properties/" ++ p ++ "/provider")
             = get (cache e)
                 ("cns/" ++ network ++ "/profiles/" ++ profile
                  ++ "/versions/version" ++ version
                  ++ "/properties/" ++ p ++ "/provider")).
  { intros version. apply get_set_profiles; assumption. }
  assert (H1link : get cache1 (ns ++ "/connections/" ++ id ++ "/" ++ opposite)
                   = str other).
  { rewrite <- Hother. apply get_set_slashes. rewrite Hkey.
    unfold ns. count_slashes. }
  assert (Hfirst : writes first = [(key', v)]).
  { unfold first, key.
    rewrite onput_connection_property by assumption. cbn [writes].
    fold key. fold cache1.
    unfold key. rewrite update_split by assumption. fold key. fold ns.
    rewrite H1mode, Hmode, H1ver, H1flag. fold flag. cbn [negb].
    rewrite (getOppositeRole_owner _ _ Hown). fold opposite.
    cbn [strict_eq to_string]. rewrite H1link. cbn [to_string].
    unfold other, key'. now rewrite !append_assoc. }
  split; [exact Hfirst|].
  (* the event the put comes back as *)
  assert (Hstate : cache (state first) = cache1).
  { unfold first, key. now rewrite onput_connection_property by assumption. }
  unfold key'. rewrite onput_connection_property by assumption.
  cbn [writes]. fold key'. rewrite Hstate.
  unfold key'. rewrite update_split by assumption. fold key'. fold ns'.
  destruct (negb (isValidMode _)); [reflexivity|].
  assert (H2ver : get (set cache1 key' v) (ns' ++ "/version")
                  = get (cache e) (ns ++ "/version")).
  { rewrite <- Hver, <- H1ver'. apply get_set_slashes. rewrite Hkey'.
    unfold ns'. count_slashes. }
  rewrite H2ver.
  assert (H2flag : get (set cache1 key' v)
                     ("cns/" ++ network ++ "/profiles/" ++ profile
                      ++ "/versions/version"
                      ++ to_string (get (cache e) (ns ++ "/version"))
                      ++ "/properties/" ++ p ++ "/provider") = flag).
  { unfold flag. rewrite <- H1flag. apply get_set_profiles; assumption. }
  rewrite H2flag.
  rewrite (getOppositeRole_other opposite flag)
    by (apply opposite_of_not_owner; exact Hown).
  reflexivity.
Qed.

Lemma update_not_echoed_witness :
  let e := {| cache := scenario_s5; timer := None; timeouts := 0 |} in
  let first :=
    onput e "cns/N/nodes/A/contexts/X/provider/p1/connections/c1/properties/x"
      "v" in
  writes first
  = [("cns/N/nodes/B/contexts/X/consumer/p1/connections/c1/properties/x", "v")]
  /\ writes (onput (state first)
              "cns/N/nodes/B/contexts/X/consumer/p1/connections/c1/properties/x"
              "v") = [].
Proof.
  intros e.
  exact (update_not_echoed e "N" "A" "X" "provider" "p1" "c1" "x" "v" "B" "X"
           eq_refl eq_refl eq_refl eq_refl eq_refl eq_refl eq_refl eq_refl
           eq_refl eq_refl eq_refl eq_refl).
Defined.

(** [propagate] at a key given by its segments. *)
Lemma propagate_split
    (cache : object) (network node context role profile p v : string) :
  segment network -> segment node -> segment context -> segment role ->
  segment profile -> segment p ->
  let ns := "cns/" ++ network ++ "/nodes/" ++ node ++ "/contexts/" ++ context
            ++ "/" ++ role ++ "/" ++ profile in
  let key := "cns/" ++ network ++ "/nodes/" ++ node ++ "/contexts/" ++ context
             ++ "/" ++ role ++ "/" ++ profile ++ "/properties/" ++ p in
  let flag :=
    get cache ("cns/" ++ network ++ "/profiles/" ++ profile
               ++ "/versions/version" ++ to_string (get cache (ns ++ "/version"))
               ++ "/properties/" ++ p ++ "/provider") in
  let opposite := getOppositeRole (str role) flag in
  propagate cache key v
  = if negb (isValidMode (get cache ("cns/" ++ network ++ "/orchestrator")))
    then []
    else if strict_eq opposite null then []
    else map (fun '(k, _) => (property_key k (str p), v))
           (filter cache (ns ++ "/connections/*/" ++ to_string opposite)).
Proof.
  intros Hn Hd Hc Hr Hf Hp ns key flag opposite.
  assert (Hsplit : split "/" key
                   = ["cns"; network; "nodes"; node; "contexts"; context; role;
                      profile; "properties"; p]).
  { exact (split_concat
             ["cns"; network; "nodes"; node; "contexts"; context; role;
              profile; "properties"; p]
             ltac:(discriminate) ltac:(segments)). }
  unfold propagate. rewrite Hsplit. cbn [item nth_error to_string].
  unfold capability_ns, flag_key. cbn [to_string].
  fold ns. fold flag. fold opposite.
  change (("cns/" ++ network) ++ "/orchestrator")
    with ("cns/" ++ network ++ "/orchestrator").
  destruct (negb (isValidMode _)); [reflexivity|].
  rewrite get_not_null. unfold flag at 1. rewrite get_not_null.
  reflexivity.
Qed.

(** X9: a capability-level write reaches the opposite end of a connection
    in two events.  In a network of valid mode, when the role written at
    owns the property and the capability has a connection [id] whose link
    to the opposite end exists, the put event at the capability-level key
    makes [onput] put the value at the connection-level key of that
    connection, and the event this put comes back as makes [onput] put the
    value at the connection-level key of the opposite end. *)
Theorem propagate_reaches_opposite
    (e : engine) (network node context role profile p v id other : string) :
  segment network -> segment node -> segment context -> segment profile ->
  segment p -> segment id -> line_free id ->
  let opposite := opposite_of role in
  let ns := "cns/" ++ network ++ "/nodes/" ++ node ++ "/contexts/" ++ context
            ++ "/" ++ role ++ "/" ++ profile in
  let key := "cns/" ++ network ++ "/nodes/" ++ node ++ "/contexts/" ++ context
             ++ "/" ++ role ++ "/" ++ profile ++ "/properties/" ++ p in
  let key1 := "cns/" ++ network ++ "/nodes/" ++ node ++ "/contexts/"
              ++ context ++ "/" ++ role ++ "/" ++ profile
              ++ "/connections/" ++ id ++ "/properties/" ++ p in
  let flag :=
    get (cache e)
      ("cns/" ++ network ++ "/profiles/" ++ profile
       ++ "/versions/version" ++ to_string (get (cache e) (ns ++ "/version"))
       ++ "/properties/" ++ p ++ "/provider") in
  isValidMode (get (cache e) ("cns/" ++ network ++ "/orchestrator")) = true ->
  role = owner flag ->
  get (cache e) (ns ++ "/connections/" ++ id ++ "/" ++ opposite) = str other ->
  let first := onput e key v in
  In (key1, v) (writes first)
  /\ writes (onput (state first) key1 v)
     = [(other ++ "/" ++ opposite ++ "/" ++ profile ++ "/connections/" ++ id
         ++ "/properties/" ++ p, v)].
Proof.
  intros Hn Hd Hc Hf Hp Hi Hlf opposite ns key key1 flag
    Hmode Hown Hother first.
  assert (Hrole : role = "provider" \/ role = "consumer")
    by (rewrite Hown; apply owner_role).
  assert (Hr : segment role) by (destruct Hrole as [-> | ->]; reflexivity).
  assert (Ho : segment opposite) by apply opposite_of_segment.
  assert (Hkey : slashes key = 9) by (unfold key; count_slashes).
  assert (Hkey1 : slashes key1 = 11) by (unfold key1; count_slashes).
  set (cache1 := set (cache e) key v).
  assert (Hstate : cache (state first) = cache1).
  { unfold first, key. now rewrite onput_capability_property by assumption. }
  (* lookups that neither put changes *)
  assert (Hkept : forall k n, slashes k = n -> n <> 9 -> n <> 11 ->
             get (set cache1 key1 v) k = get (cache e) k
             /\ get cache1 k = get (cache e) k).
  { intros k n <- H9 H11. split.
    - rewrite get_set_slashes by congruence.
      apply get_set_slashes. congruence.
    - apply get_set_slashes. congruence. }
  assert (Hflags : forall version,
             let fk := "cns/" ++ network ++ "/profiles/" ++ profile
                       ++ "/versions/version" ++ version
                       ++ "/properties/" ++ p ++ "/provider" in
             get (set cache1 key1 v) fk = get (cache e) fk
             /\ get cache1 fk = get (cache e) fk).
  { intros version fk. split.
    - transitivity (get cache1 fk).
      + apply (get_set_profiles cache1 network _ v network); assumption.
      + apply (get_set_profiles (cache e) network _ v network); assumption.
    - apply (get_set_profiles (cache e) network _ v network); assumption. }
  assert (Smode : slashes ("cns/" ++ network ++ "/orchestrator") = 2)
    by count_slashes.
  assert (Sver : slashes (ns ++ "/version") = 8)
    by (unfold ns; count_slashes).
  assert (Slink : slashes (ns ++ "/connections/" ++ id ++ "/" ++ opposite) = 10)
    by (unfold ns; count_slashes).
  split.
  - unfold first, key.
    rewrite onput_capability_property by assumption. cbn [writes].
    fold key. fold cache1.
    unfold key. rewrite propagate_split by assumption. fold key. fold ns.
    rewrite (proj2 (Hkept _ 2 Smode ltac:(lia) ltac:(lia))), Hmode. cbn [negb].
    rewrite (proj2 (Hkept _ 8 Sver ltac:(lia) ltac:(lia))).
    rewrite (proj2 (Hflags _)). fold flag.
    rewrite (getOppositeRole_owner _ _ Hown). fold opposite.
    cbn [strict_eq to_string].
    assert (Hk : In (ns ++ "/connections/" ++ id ++ "/" ++ opposite)
                    (keys (filter cache1 (ns ++ "/connections/*/" ++ opposite)))).
    { apply filter_keys. split.
      - apply (get_keys _ _ other).
        rewrite (proj2 (Hkept _ 10 Slink ltac:(lia) ltac:(lia))). exact Hother.
      - now apply compare_record. }
    apply in_map_iff in Hk. destruct Hk as [[k target] [Hfst Hin]].
    cbn [fst] in Hfst. subst k.
    apply (in_map (fun '(k, _) => (property_key k (str p), v))) in Hin.
    cbv beta iota in Hin.
    rewrite (property_key_link ns id opposite p Ho) in Hin.
    replace (ns ++ "/connections/" ++ id ++ "/properties/" ++ p)
      with key1 in Hin by (unfold ns, key1; now rewrite !append_assoc).
    exact Hin.
  - unfold key1.
    rewrite onput_connection_property by assumption. cbn [writes].
    rewrite Hstate.
    rewrite update_split by assumption. fold key1. fold ns.
    rewrite (proj1 (Hkept _ 2 Smode ltac:(lia) ltac:(lia))), Hmode. cbn [negb].
    rewrite (proj1 (Hkept _ 8 Sver ltac:(lia) ltac:(lia))).
    rewrite (proj1 (Hflags _)). fold flag.
    rewrite (getOppositeRole_owner _ _ Hown). fold opposite.
    cbn [strict_eq to_string].
    rewrite (proj1 (Hkept _ 10 Slink ltac:(lia) ltac:(lia))), Hother. reflexivity.
Qed.

Lemma propagate_reaches_opposite_witness :
  let e := {| cache := scenario_s6; timer := None; timeouts := 0 |} in
  let first :=
    onput e "cns/N/nodes/A/contexts/X/provider/p1/properties/x" "v" in
  In ("cns/N/nodes/A/contexts/X/provider/p1/connections/c2/properties/x", "v")
     (writes first)
  /\ writes (onput (state first)
              "cns/N/nodes/A/contexts/X/provider/p1/connections/c2/properties/x"
              "v")
     = [("cns/N/nodes/C/contexts/X" ++ "/" ++ "consumer" ++ "/" ++ "p1"
         ++ "/connections/" ++ "c2" ++ "/properties/" ++ "x", "v")].
Proof.
  intros e.
  exact (propagate_reaches_opposite e "N" "A" "X" "provider" "p1" "x" "v" "c2"
           "cns/N/nodes/C/contexts/X"
           eq_refl eq_refl eq_refl eq_refl eq_refl eq_refl eq_refl
           eq_refl eq_refl eq_refl).
Defined.

(** ** What the matchmaker pairs *)

Lemma strict_eq_eq (a : value) (s : string) :
  strict_eq a (str s) = true <-> a = str s.
Proof.
  destruct a as [| |t]; simpl; try (split; discriminate).
  rewrite String.eqb_eq. split; congruence.
Qed.

(** What [allsystems] leaves in [add]: what was there, and the candidates of
    [bysystem] for every network of the cache. *)
Lemma allsystems_in (cache : object) (provider : string) (profile : value)
    (version : string) (scope : value) (add : list candidate) (c : candidate) :
  In c (allsystems cache provider profile version scope add)
  <-> In c add
      \/ exists network node,
           network_of cache network
           /\ node_of cache network node
           /\ context_of cache network node scope
           /\ consumes cache (endpoint network node scope) profile version
           /\ c = Candidate.make provider (endpoint network node scope)
                   profile version.
Proof.
  unfold allsystems.
  rewrite (fold_left_pushes _
             (fun (entry : string * string) c =>
                let network := item (split "/" (fst entry)) 1 in
                exists node,
                  node_of cache network node
                  /\ context_of cache network node scope
                  /\ consumes cache (endpoint network node scope) profile version
                  /\ c = Candidate.make provider (endpoint network node scope)
                          profile version)).
  - split.
    + intros [H|[[key v] [Hin [node H]]]]; [now left|]. right.
      exists (item (split "/" key) 1), node. split; [now exists key, v|].
      exact H.
    + intros [H|[network [node [[key [v [Hin <-]]] H]]]]; [now left|].
      right. exists (key, v). split; [exact Hin|]. now exists node.
  - intros acc [key v]. cbn [fst]. apply bysystem_in.
Qed.

(** What [consumers] leaves in [add], the mode being that of the network
    of the provider. *)
Lemma consumers_in (cache : object) (network node context profile : value)
    (version : string) (add : list candidate) (c : candidate) :
  In c (consumers cache (mode_of cache network) network node context profile
          version add)
  <-> In c add
      \/ exists consumer,
           consumer_end cache network context profile version consumer
           /\ c = Candidate.make (endpoint network node context) consumer
                   profile version.
Proof.
  unfold consumers, consumer_end.
  destruct (strict_eq (mode_of cache network) (str "allsystems")) eqn:Hall.
  - apply strict_eq_eq in Hall. rewrite allsystems_in. split.
    + intros [H|[network' [node' (H1 & H2 & H3 & H4 & H5)]]]; [now left|].
      right. exists (endpoint network' node' context). split; [|exact H5].
      exists network', node'. split; [left; now split|]. auto.
    + intros [H|[consumer [[network' [node' (Hm & H2 & H3 & H4 & ->)]] H5]]];
        [now left|].
      right. exists network', node'.
      destruct Hm as [[_ H1]|[Hm _]]; [auto|].
      rewrite Hall in Hm. discriminate Hm.
  - destruct (strict_eq (mode_of cache network) (str "bysystem")) eqn:Hby.
    + apply strict_eq_eq in Hby. rewrite bysystem_in. split.
      * intros [H|[node' (H2 & H3 & H4 & H5)]]; [now left|].
        right. exists (endpoint network node' context). split; [|exact H5].
        exists network, node'. split; [right; now split|]. auto.
      * intros [H|[consumer [[network' [node' (Hm & H2 & H3 & H4 & ->)]] H5]]];
          [now left|].
        right. destruct Hm as [[Hm _]|[_ ->]].
        -- rewrite Hm in Hall. simpl in Hall. discriminate Hall.
        -- exists node'. auto.
    + split; [now left|].
      intros [H|[consumer [[network' [node' (Hm & _)]] _]]]; [exact H|].
      destruct Hm as [[Hm _]|[Hm _]]; rewrite Hm in *; discriminate.
Qed.

(** The prefix [build] hands down its loops is the endpoint. *)
Lemma endpoint_nested (network node context : value) (rest : string) :
  ((("cns/" ++ to_string network) ++ "/nodes/" ++ to_string node)
   ++ "/contexts/" ++ to_string context) ++ rest
  = endpoint network node context ++ rest.
Proof. unfold endpoint. now rewrite !append_assoc. Qed.

Lemma contexts_nested (network node : value) :
  (("cns/" ++ to_string network) ++ "/nodes/" ++ to_string node)
  ++ "/contexts/*/name"
  = "cns/" ++ to_string network ++ "/nodes/" ++ to_string node
    ++ "/contexts/*/name".
Proof. now rewrite !append_assoc. Qed.

(** What the loops of [build] over one network leave in [add]. *)
Lemma build_network_in (cache : object) (network : value)
    (add : list candidate) (c : candidate) :
  In c (build_network cache (mode_of cache network) network add)
  <-> In c add
      \/ exists node context,
           node_of cache network node
           /\ context_of cache network node context
           /\ provides cache (endpoint network node context)
                (Candidate.profile c) (Candidate.version c)
           /\ Candidate.provider c = endpoint network node context
           /\ consumer_end cache network context (Candidate.profile c)
                (Candidate.version c) (Candidate.consumer c).
Proof.
  unfold build_network. cbv zeta.
  rewrite (fold_left_pushes _
             (fun (entry : string * string) c =>
                let node := item (split "/" (fst entry)) 3 in
                exists context,
                  context_of cache network node context
                  /\ provides cache (endpoint network node context)
                       (Candidate.profile c) (Candidate.version c)
                  /\ Candidate.provider c = endpoint network node context
                  /\ consumer_end cache network context (Candidate.profile c)
                       (Candidate.version c) (Candidate.consumer c))).
  - split.
    + intros [H|[[key v] [Hin [context H]]]]; [now left|]. right.
      exists (item (split "/" key) 3), context. split; [now exists key, v|].
      exact H.
    + intros [H|[node [context [[key [v [Hin <-]]] H]]]]; [now left|].
      right. exists (key, v). split; [exact Hin|]. now exists context.
  - intros acc [key v]. cbn [fst].
    set (node := item (split "/" key) 3).
    rewrite contexts_nested.
    rewrite (fold_left_pushes _
               (fun (entry : string * string) c =>
                  let context := item (split "/" (fst entry)) 5 in
                  provides cache (endpoint network node context)
                    (Candidate.profile c) (Candidate.version c)
                  /\ Candidate.provider c = endpoint network node context
                  /\ consumer_end cache network context (Candidate.profile c)
                       (Candidate.version c) (Candidate.consumer c))).
    + split.
      * intros [H|[[key' v'] [Hin H]]]; [now left|]. right.
        exists (item (split "/" key') 5). split; [now exists key', v'|].
        exact H.
      * intros [H|[context [[key' [v' [Hin <-]]] H]]]; [now left|].
        right. exists (key', v'). split; [exact Hin | exact H].
    + intros acc' [key' v']. cbn [fst].
      set (context := item (split "/" key') 5).
      rewrite endpoint_nested.
      rewrite (fold_left_pushes _
                 (fun (entry : string * string) c =>
                    item (split "/" (fst entry)) 7 = Candidate.profile c
                    /\ snd entry = Candidate.version c
                    /\ Candidate.provider c = endpoint network node context
                    /\ consumer_end cache network context (Candidate.profile c)
                         (Candidate.version c) (Candidate.consumer c))).
      * split.
        -- intros [H|[[k w] [Hin (H1 & H2 & H3)]]]; [now left|]. right.
           cbn [fst snd] in H1, H2. subst w.
           split; [now exists k | exact H3].
        -- intros [H|[[k [Hin H1]] H3]]; [now left|]. right.
           exists (k, Candidate.version c). cbn [fst snd]. auto.
      * intros acc'' [k w]. cbn [fst snd]. rewrite consumers_in. split.
        -- intros [H|[consumer [Hend ->]]]; [now left|]. right.
           cbn. auto.
        -- intros [H|(H1 & H2 & H3 & H4)]; [now left|]. right.
           exists (Candidate.consumer c). rewrite H1, H2. split; [exact H4|].
           rewrite <- H3. now destruct c.
Qed.

(** What the loop over the networks leaves in [add] when it runs to its
    end. *)
Lemma build_networks_in (cache networks : object) (add add' : list candidate)
    (c : candidate) :
  build_networks cache networks add = Some add' ->
  In c add'
  <-> In c add
      \/ exists key v,
           In (key, v) networks
           /\ In c (build_network cache
                      (mode_of cache (item (split "/" key) 1))
                      (item (split "/" key) 1) []).
Proof.
  revert add. induction networks as [|[key v] networks IH]; intros add.
  - intros [= <-]. split; [now left | intros [H|[k [w [[] _]]]]; exact H].
  - cbn [build_networks].
    change (get cache (("cns/" ++ to_string (item (split "/" key) 1))
                       ++ "/orchestrator"))
      with (mode_of cache (item (split "/" key) 1)).
    destruct (negb (isValidMode _)); [discriminate|].
    intros H. rewrite (IH _ H). rewrite build_network_in.
    split.
    + intros [[Hc|Hc]|[k [w [Hin Hc]]]].
      * now left.
      * right. exists key, v. split; [now left|].
        apply build_network_in. now right.
      * right. exists k, w. split; [now right | exact Hc].
    + intros [Hc|[k [w [[[= <- <-]|Hin] Hc]]]].
      * left. now left.
      * apply build_network_in in Hc. destruct Hc as [[]|Hc].
        left. now right.
      * right. now exists k, w.
Qed.



(** The loop over the networks is only left early at a network whose mode
    is not valid. *)
Lemma build_networks_left (cache networks : object) (add : list candidate) :
  build_networks cache networks add = None ->
  exists key v,
    In (key, v) networks
    /\ isValidMode (mode_of cache (item (split "/" key) 1)) = false.
Proof.
  revert add. induction networks as [|[key v] networks IH]; intros add.
  - discriminate.
  - cbn [build_networks].
    change (get cache (("cns/" ++ to_string (item (split "/" key) 1))
                       ++ "/orchestrator"))
      with (mode_of cache (item (split "/" key) 1)).
    destruct (isValidMode (mode_of cache (item (split "/" key) 1))) eqn:Hmode.
    + cbn [negb]. intros H. destruct (IH _ H) as [k [w [Hin Hk]]].
      exists k, w. split; [now right | exact Hk].
    + intros _. exists key, v. split; [now left | exact Hmode].
Qed.

(** X11: one network without a valid mode holds up every network.  The
    loop of [build] over the networks is left by its [return], before
    [connections] is reached, exactly when some network the cache names is
    in a mode other than [allsystems] and [bysystem]; [build] gets to
    [connections] exactly when every named network has a valid mode. *)
Theorem matchmaker_stops (cache : object) :
  matchmaker cache = None
  <-> exists network,
        network_of cache network
        /\ isValidMode (mode_of cache network) = false.
Proof.
  split.
  - intros H. apply build_networks_left in H.
    destruct H as [key [v [Hin Hmode]]].
    exists (item (split "/" key) 1). split; [now exists key, v | exact Hmode].
  - intros [network [[key [v [Hin <-]]] Hmode]].
    apply build_networks_invalid. now exists key, v.
Qed.

(** ** The puts of [build] as events *)

(** The ends of a candidate of the matchmaker are prefixes
    [cns/network/nodes/node/contexts/context] of segments. *)
Lemma matchmaker_ends (cache : object) (add : list candidate) (c : candidate) :
  matchmaker cache = Some add -> In c add ->
  (exists n d x,
     segment n /\ segment d /\ segment x
     /\ Candidate.provider c
        = "cns/" ++ n ++ "/nodes/" ++ d ++ "/contexts/" ++ x)
  /\ (exists n d x,
        segment n /\ segment d /\ segment x
        /\ Candidate.consumer c
           = "cns/" ++ n ++ "/nodes/" ++ d ++ "/contexts/" ++ x)
  /\ segment (to_string (Candidate.profile c)).
Proof.
  intros Hadd Hc. unfold matchmaker in Hadd.
  apply (build_networks_in _ _ _ _ c Hadd) in Hc.
  destruct Hc as [[]|[key [v [_ Hc]]]].
  apply build_network_in in Hc.
  destruct Hc as [[]|[node [context (Hnode & Hctx & Hprov & Hp & Hend)]]].
  destruct Hnode as [kd [vd [_ <-]]]. destruct Hctx as [kx [vx [_ <-]]].
  split; [|split].
  - exists (to_string (item (split "/" key) 1)),
      (to_string (item (split "/" kd) 3)), (to_string (item (split "/" kx) 5)).
    repeat split; try apply key_item_segment. exact Hp.
  - destruct Hend as [network' [node' (Hm & Hnode' & _ & _ & ->)]].
    destruct Hnode' as [kd' [vd' [_ <-]]].
    exists (to_string network'), (to_string (item (split "/" kd') 3)),
      (to_string (item (split "/" kx) 5)).
    repeat split; try apply key_item_segment.
    destruct Hm as [[_ [kn [vn [_ <-]]]]|[_ ->]]; apply key_item_segment.
  - destruct Hprov as [kf [_ <-]]. apply key_item_segment.
Qed.

(** The keys [connections] writes for a candidate lie under the
    [connections] of one of its two capabilities. *)
Lemma connection_keys (generate : nat -> string) (cache : object)
    (c : candidate) (next : nat) (k : string) :
  In k (map fst (fst (connection generate cache c next))) ->
  exists rest,
    k = Candidate.provider c ++ "/provider/"
        ++ to_string (Candidate.profile c) ++ "/connections/" ++ rest
    \/ k = Candidate.consumer c ++ "/consumer/"
           ++ to_string (Candidate.profile c) ++ "/connections/" ++ rest.
Proof.
  assert (Hside : forall E role id link target properties,
            In k (map fst (side (E ++ role ++ to_string (Candidate.profile c)
                                 ++ "/connections/" ++ id ++ "/")
                             link target properties)) ->
            exists rest,
              k = E ++ role ++ to_string (Candidate.profile c)
                  ++ "/connections/" ++ rest).
  { intros E role id link target properties H. apply side_keys in H.
    destruct H as [->|[name ->]]; rewrite !append_assoc; eauto. }
  unfold connection.
  destruct (find_record (provider_records cache c) (Candidate.consumer c))
    as [kp|];
    destruct (find_record (consumer_records cache c) (Candidate.provider c))
      as [kc|];
    cbn [negb andb strict_eq fst]; rewrite ?item_not_null; cbn [fst];
    rewrite ?map_app, ?in_app_iff; cbn [map In app].
  - intros [].
  - intros [[]|H]. apply Hside in H. destruct H as [rest H]. eauto.
  - intros [H|[]]. apply Hside in H. destruct H as [rest H]. eauto.
  - intros [H|H]; apply Hside in H; destruct H as [rest H]; eauto.
Qed.

Lemma connections_keys (generate : nat -> string) (cache : object)
    (add : list candidate) (next : nat) (k : string) :
  In k (map fst (fst (connections generate cache add next))) ->
  exists c rest,
    In c add
    /\ (k = Candidate.provider c ++ "/provider/"
            ++ to_string (Candidate.profile c) ++ "/connections/" ++ rest
        \/ k = Candidate.consumer c ++ "/consumer/"
               ++ to_string (Candidate.profile c) ++ "/connections/" ++ rest).
Proof.
  revert next. induction add as [|c add IH]; intros next; [intros []|].
  cbn [connections].
  destruct (connection generate cache c next) as [ws next'] eqn:E.
  destruct (connections generate cache add next') as [ws' next''] eqn:E'.
  cbn [fst]. rewrite map_app, in_app_iff. intros [H|H].
  - destruct (connection_keys generate cache c next k) as [rest Hk].
    { now rewrite E. }
    exists c, rest. split; [now left | exact Hk].
  - destruct (IH next') as [c' [rest [Hc' Hk]]]; [now rewrite E'|].
    exists c', rest. split; [now right | exact Hk].
Qed.

(** A put event under the [connections] of a capability calls [update] or
    nothing. *)
Lemma onput_connections_key
    (e : engine) (n d x role f rest v : string) :
  segment n -> segment d -> segment x -> segment f ->
  role = "provider" \/ role = "consumer" ->
  let o := onput e ("cns/" ++ n ++ "/nodes/" ++ d ++ "/contexts/" ++ x
                    ++ "/" ++ role ++ "/" ++ f ++ "/connections/" ++ rest) v in
  existsb Timer.rebuilds (calls o) = false
  /\ timer (state o) = timer e
  /\ in_scope ("cns/" ++ n ++ "/nodes/" ++ d ++ "/contexts/" ++ x
               ++ "/" ++ role ++ "/" ++ f ++ "/connections/" ++ rest) = true.
Proof.
  intros Hn Hd Hx Hf Hrole.
  assert (Hr : segment role) by (destruct Hrole as [-> | ->]; reflexivity).
  change ("cns/" ++ n ++ "/nodes/" ++ d ++ "/contexts/" ++ x
          ++ "/" ++ role ++ "/" ++ f ++ "/connections/" ++ rest)
    with ("cns" ++ String "/" (n ++ String "/" ("nodes" ++ String "/"
            (d ++ String "/" ("contexts" ++ String "/" (x ++ String "/"
               (role ++ String "/" (f ++ String "/"
                  ("connections" ++ String "/" rest))))))))).
  set (key := "cns" ++ _).
  assert (Hsplit : split "/" key
                   = (["cns"; n; "nodes"; d; "contexts"; x; role; f;
                       "connections"] ++ split "/" rest)%list).
  { unfold key.
    rewrite !split_app, (split_segment n Hn), (split_segment d Hd),
      (split_segment x Hx), (split_segment role Hr), (split_segment f Hf).
    reflexivity. }
  unfold onput, in_scope. rewrite Hsplit.
  set (parts := (_ ++ split "/" rest)%list).
  change (item parts 0) with (str "cns").
  change (item parts 1) with (str n).
  change (item parts 2) with (str "nodes").
  change (item parts 6) with (str role).
  change (item parts 8) with (str "connections").
  cbn [strict_eq String.eqb Ascii.eqb Bool.eqb negb orb andb].
  destruct (strict_eq (item parts 10) (str "properties"));
    destruct Hrole as [-> | ->]; repeat split; reflexivity.
Qed.

(** X12: the puts of [build] schedule no further [build].  A put that
    [build] issues, when the watcher delivers it back, is filed in the
    cache and calls [rebuild] in no case: no timeout is set or cleared, and
    [timer] is left as it was. *)
Theorem build_writes_quiet
    (generate : nat -> string) (M : object) (next : nat) (k v : string) :
  In (k, v) (fst (build generate M next)) ->
  forall r : Timer.runtime,
    let r' := fst (Timer.deliver r (Put k v)) in
    existsb Timer.rebuilds (calls (handle (Timer.globals r) (Put k v))) = false
    /\ Timer.pending r' = Timer.pending r
    /\ timer (Timer.globals r') = timer (Timer.globals r)
    /\ get (cache (Timer.globals r')) k = str v.
Proof.
  intros Hin r.
  assert (Hquiet :
            existsb Timer.rebuilds (calls (onput (Timer.globals r) k v)) = false
            /\ timer (state (onput (Timer.globals r) k v))
               = timer (Timer.globals r)
            /\ in_scope k = true).
  { unfold build in Hin. destruct (matchmaker M) as [add|] eqn:Hadd;
      [|destruct Hin].
    apply (in_map fst) in Hin. cbn [fst] in Hin.
    apply connections_keys in Hin. destruct Hin as [c [rest [Hc Hk]]].
    destruct (matchmaker_ends M add c Hadd Hc)
      as [(n & d & x & Hn & Hd & Hx & Hp) [(n' & d' & x' & Hn' & Hd' & Hx' & Hq)
                                            Hf]].
    destruct Hk as [-> | ->]; [rewrite Hp | rewrite Hq]; rewrite !append_assoc.
    - exact (onput_connections_key (Timer.globals r) n d x "provider"
               (to_string (Candidate.profile c)) rest v Hn Hd Hx Hf
               (or_introl eq_refl)).
    - exact (onput_connections_key (Timer.globals r) n' d' x' "consumer"
               (to_string (Candidate.profile c)) rest v Hn' Hd' Hx' Hf
               (or_intror eq_refl)). }
  destruct Hquiet as [Hcalls [Htimer Hscope]].
  cbv zeta. rewrite TimerFacts.deliver_globals. cbn [handle].
  split; [exact Hcalls|]. split; [|split; [exact Htimer|]].
  - unfold Timer.deliver. cbn [handle fst]. now rewrite Hcalls.
  - rewrite onput_cache, Hscope. apply get_set_same.
Qed.

Lemma build_writes_quiet_witness :
  let r := {| Timer.globals := {| cache := network_n2; timer := None;
                                  timeouts := 0 |};
              Timer.pending := [] |} in
  let k := "cns/N2/nodes/A/contexts/X/provider/p1/connections/k/consumer" in
  let v := "cns/N2/nodes/B/contexts/X" in
  let r' := fst (Timer.deliver r (Put k v)) in
  existsb Timer.rebuilds (calls (handle (Timer.globals r) (Put k v))) = false
  /\ Timer.pending r' = Timer.pending r
  /\ timer (Timer.globals r') = timer (Timer.globals r)
  /\ get (cache (Timer.globals r')) k = str v.
Proof.
  intros r k v.
  apply (build_writes_quiet sample_ids network_n2 0 k v).
  vm_compute. tauto.
Defined.

(** ** Patterns without a wildcard *)

Lemma canonicalize_slash (c : ascii) :
  (RegExp.canonicalize c =? 47)%nat = Ascii.eqb c "/".
Proof. destruct c as [[] [] [] [] [] [] [] []]; reflexivity. Qed.

(** Only ['/'] is the same letter as ['/']. *)
Lemma same_letter_slash (c d : ascii) :
  RegExp.same_letter c d = true -> Ascii.eqb c "/" = Ascii.eqb d "/".
Proof.
  unfold RegExp.same_letter. intros H. apply Nat.eqb_eq in H.
  now rewrite <- !canonicalize_slash, H.
Qed.

Lemma glob_literal (span : ascii -> bool) (p t : string) :
  literal p = true -> glob span p t <-> same_letters p t = true.
Proof.
  revert t. induction p as [|c p IH]; intros t Hp.
  - split.
    + intros H. now inversion H.
    + destruct t; [constructor | discriminate].
  - cbn [literal] in Hp. apply andb_true_iff in Hp. destruct Hp as [Hc Hp].
    apply negb_true_iff, Ascii.eqb_neq in Hc. split.
    + intros H. inversion H as [|? d ? t' _ Hcd Hg| |]; subst;
        try congruence.
      cbn [same_letters]. rewrite Hcd. now apply IH.
    + destruct t as [|d t]; [discriminate|]. cbn [same_letters].
      intros H. apply andb_true_iff in H. destruct H as [Hcd H].
      apply glob_char; [exact Hc | exact Hcd | now apply IH].
Qed.

Lemma literal_split (p : string) :
  literal p = true -> Forall (fun f => literal f = true) (split "/" p).
Proof.
  induction p as [|c p IH]; [repeat constructor|].
  cbn [literal split]. intros H. apply andb_true_iff in H.
  destruct H as [Hc Hp]. specialize (IH Hp).
  destruct (Ascii.eqb c "/"); [now constructor|].
  destruct (split "/" p) as [|seg rest].
  - repeat constructor. cbn [literal]. now rewrite Hc.
  - inversion IH as [|? ? Hseg Hrest]; subst. constructor; [|exact Hrest].
    cbn [literal]. now rewrite Hc, Hseg.
Qed.

(** Two keys are the same up to letter case when their segments are, one
    by one. *)
Lemma same_letters_split (p k : string) :
  Forall2 (fun f s => same_letters f s = true) (split "/" p) (split "/" k)
  <-> same_letters p k = true.
Proof.
  revert k. induction p as [|c p IH]; intros k.
  - cbn [split]. destruct k as [|d k]; cbn [same_letters split].
    + split; [reflexivity | repeat constructor].
    + split; [|discriminate]. intros H.
      destruct (Ascii.eqb d "/").
      * inversion H as [|? ? ? ? _ Hrest]; subst. inversion Hrest as [Hnil|].
        symmetry in Hnil. now destruct (split_not_nil "/" k).
      * destruct (split "/" k) as [|seg rest];
          inversion H as [|? ? ? ? Hs _]; subst; discriminate Hs.
  - cbn [split]. destruct (Ascii.eqb_spec c "/") as [->|Hc].
    + destruct k as [|d k]; cbn [split same_letters].
      * split; [|discriminate]. intros H.
        inversion H as [|? ? ? ? _ Hrest]; subst.
        inversion Hrest as [Hnil|]. now destruct (split_not_nil "/" p).
      * destruct (Ascii.eqb_spec d "/") as [->|Hd].
        -- rewrite RegExpFacts.same_letter_refl. cbn [andb].
           rewrite <- IH. split.
           ++ intros H. now inversion H.
           ++ intros H. now constructor.
        -- assert (Hcd : RegExp.same_letter "/" d = false).
           { destruct (RegExp.same_letter "/" d) eqn:E; [|reflexivity].
             apply same_letter_slash in E. apply Ascii.eqb_neq in Hd.
             rewrite Hd in E. discriminate E. }
           rewrite Hcd. cbn [andb]. split; [|discriminate]. intros H.
           destruct (split "/" k) as [|seg rest];
             inversion H as [|? ? ? ? Hs _]; subst; discriminate Hs.
    + destruct (split "/" p) as [|seg rest] eqn:Ep;
        [now destruct (split_not_nil "/" p)|].
      destruct k as [|d k]; cbn [split same_letters].
      * split; [|discriminate]. intros H.
        inversion H as [|? ? ? ? Hs _]; subst. discriminate Hs.
      * destruct (Ascii.eqb_spec d "/") as [->|Hd].
        -- assert (Hcd : RegExp.same_letter c "/" = false).
           { destruct (RegExp.same_letter c "/") eqn:E; [|reflexivity].
             apply same_letter_slash in E. apply Ascii.eqb_neq in Hc.
             rewrite Hc in E. discriminate E. }
           rewrite Hcd. cbn [andb]. split; [|discriminate]. intros H.
           inversion H as [|? ? ? ? Hs _]; subst. discriminate Hs.
        -- destruct (split "/" k) as [|s rest'] eqn:Ek;
             [now destruct (split_not_nil "/" k)|].
           specialize (IH k). rewrite Ek in IH.
           rewrite andb_true_iff, <- IH. split.
           ++ intros H. inversion H as [|? ? ? ? Hs Hr]; subst.
              cbn [same_letters] in Hs. apply andb_true_iff in Hs.
              destruct Hs as [H1 H2]. split; [exact H1 | now constructor].
           ++ intros [H1 H2].
              inversion H2 as [|? ? ? ? Hs Hr]; subst.
              constructor; [|exact Hr]. cbn [same_letters].
              now rewrite H1, Hs.
Qed.

(** X13: a pattern without [*] selects by name, up to the case of the
    letters.  On an object that lists no key twice, [filter] with such a
    pattern returns exactly the entries whose key is the pattern character
    by character, a letter standing for its upper and its lower case, and
    no character of the pattern, [.], [+] or [$] among them, standing for
    anything but itself. *)
Theorem filter_literal (M : object) (pattern : string) :
  well_formed M -> literal pattern = true ->
  forall k v,
    In (k, v) (filter M pattern)
    <-> In (k, v) M /\ same_letters pattern k = true.
Proof.
  intros HM Hp k v. rewrite (filter_well_formed M pattern HM), filter_In.
  rewrite compare_spec, <- same_letters_split.
  apply and_iff_compat_l.
  pose proof (literal_split pattern Hp) as Hsegs.
  revert Hsegs. generalize (split "/" pattern), (split "/" k).
  intros fs. induction fs as [|f fs IH]; intros ks Hfs.
  - split; intros H; inversion H; constructor.
  - inversion Hfs as [|? ? Hf Hfs']; subst. split.
    + intros H. inversion H as [|? s ? ks' Hg Hrest]; subst.
      constructor;
        [now apply (glob_literal no_line_terminator f s Hf) | now apply IH].
    + intros H. inversion H as [|? s ? ks' Hg Hrest]; subst.
      constructor;
        [now apply (glob_literal no_line_terminator f s Hf) | now apply IH].
Qed.

Lemma filter_literal_witness :
  let M := [("cns/N/nodes/A/name", "A"); ("cns/n/nodes/a/name", "a");
            ("cns/N/nodes/B/name", "B")] in
  In ("cns/n/nodes/a/name", "a") (filter M "cns/N/nodes/A/name")
  /\ ~ In ("cns/N/nodes/B/name", "B") (filter M "cns/N/nodes/A/name").
Proof.
  intros M.
  assert (HM : well_formed M) by well_formed_entries.
  split.
  - apply (filter_literal M "cns/N/nodes/A/name" HM eq_refl).
    split; [vm_compute; tauto | reflexivity].
  - intros H.
    apply (filter_literal M "cns/N/nodes/A/name" HM eq_refl) in H.
    destruct H as [_ H]. discriminate H.
Defined.

(** ** A connection of which one side is there *)

Lemma Forall2_item {A B : Type} (R : A -> B -> Prop) (l : list A)
    (l' : list B) (n : nat) (a : A) (b : B) :
  Forall2 R l l' -> nth_error l n = Some a -> nth_error l' n = Some b ->
  R a b.
Proof.
  intros H. revert n. induction H as [|x y l l' Hxy _ IH]; intros [|n];
    simpl; try discriminate.
  - now intros [= ->] [= ->].
  - apply IH.
Qed.

(** What a [*] matches holds no line terminator. *)
Lemma glob_star_line_free (s : string) :
  glob no_line_terminator "*" s -> line_free s.
Proof.
  unfold line_free. induction s as [|d s IH]; [reflexivity|].
  intros H. inversion H as [|? ? ? ? Hc|? ? Hnone|? ? ? Hd Hmore]; subst.
  - now destruct Hc.
  - inversion Hnone.
  - cbn [spanned]. rewrite Hd. now apply IH.
Qed.

(** The segment number 6 of a key under a six-segment prefix. *)
Lemma capability_key_role (E role rest : string) :
  slashes E = 5 -> segment role ->
  nth_error (split "/" (E ++ "/" ++ role ++ "/" ++ rest)) 6 = Some role.
Proof.
  intros HE Hr.
  change (E ++ "/" ++ role ++ "/" ++ rest)
    with (E ++ String "/" (role ++ String "/" rest)).
  rewrite !split_app, (split_segment role Hr).
  rewrite nth_error_app2 by (rewrite length_split; lia).
  rewrite length_split, HE. reflexivity.
Qed.

(** A key of one role is not seen through a pattern of the other. *)
Lemma compare_other_role (E E' role role' rest rest' : string) :
  slashes E = 5 -> slashes E' = 5 ->
  segment role -> segment role' ->
  literal role' = true -> same_letters role' role = false ->
  compare (E ++ "/" ++ role ++ "/" ++ rest)
    (split "/" (E' ++ "/" ++ role' ++ "/" ++ rest')) = false.
Proof.
  intros HE HE' Hr Hr' Hlit Hdiff.
  destruct (compare _ _) eqn:Hcmp; [|reflexivity].
  apply compare_spec in Hcmp.
  pose proof (Forall2_item _ _ _ 6 role' role Hcmp
                (capability_key_role E' role' rest' HE' Hr')
                (capability_key_role E role rest HE Hr)) as Hg.
  apply (glob_literal _ _ _ Hlit) in Hg. congruence.
Qed.

(** The id of a record found through [ns/connections/*/link]. *)
Lemma record_id (cache : object) (ns link key v : string) :
  slashes ns = 7 -> segment link ->
  In (key, v) (filter cache (ns ++ "/connections/*/" ++ link)) ->
  exists id,
    item (split "/" key) 9 = str id /\ segment id /\ line_free id.
Proof.
  intros Hns Hlink Hin. apply filter_in in Hin. destruct Hin as [_ Hcmp].
  apply compare_spec in Hcmp.
  assert (Hstar : nth_error (split "/" (ns ++ "/connections/*/" ++ link)) 9
                  = Some "*").
  { change (ns ++ "/connections/*/" ++ link)
      with (ns ++ String "/" (String.concat "/" ["connections"; "*"; link])).
    rewrite split_app, split_concat by (discriminate || segments).
    rewrite nth_error_app2 by (rewrite length_split; lia).
    rewrite length_split, Hns. reflexivity. }
  destruct (nth_error (split "/" key) 9) as [id|] eqn:Eid.
  - exists id. unfold item. rewrite Eid. split; [reflexivity|]. split.
    + pose proof (key_item_segment key 9) as Hseg. unfold item in Hseg.
      now rewrite Eid in Hseg.
    + apply glob_star_line_free. exact (Forall2_item _ _ _ 9 _ _ Hcmp Hstar Eid).
  - apply nth_error_None in Eid. apply Forall2_length in Hcmp.
    assert (9 < List.length (split "/" (ns ++ "/connections/*/" ++ link))).
    { apply nth_error_Some. congruence. }
    lia.
Qed.

(** The puts of one side leave its record to be found. *)
Lemma side_completes (store : object) (E role f id link target : string)
    (properties : object) :
  well_formed store -> segment id -> line_free id ->
  link = "provider" \/ link = "consumer" ->
  let store' :=
    apply_writes store
      (side (E ++ "/" ++ role ++ "/" ++ f ++ "/connections/" ++ id ++ "/")
         link target properties) in
  In (E ++ "/" ++ role ++ "/" ++ f ++ "/connections/" ++ id ++ "/" ++ link,
      target)
     (filter store' (E ++ "/" ++ role ++ "/" ++ f ++ "/connections/*/" ++ link)).
Proof.
  intros Hwf Hseg Hlf Hlink store'.
  set (ns := E ++ "/" ++ role ++ "/" ++ f ++ "/connections/" ++ id ++ "/").
  assert (Hkey : E ++ "/" ++ role ++ "/" ++ f ++ "/connections/" ++ id
                 ++ "/" ++ link = ns ++ link).
  { unfold ns. now rewrite !append_assoc. }
  apply filter_record.
  - now apply well_formed_apply_writes.
  - rewrite Hkey. unfold store', side. fold ns.
    apply (get_apply_writes_last store []). intros Hk.
    apply in_map_iff in Hk. destruct Hk as [[k v] [Hk Hin']].
    apply in_map_iff in Hin'. destruct Hin' as [[name w] [[= <- <-] _]].
    cbn [fst] in Hk. apply append_inv_head in Hk.
    destruct Hlink as [-> | ->]; discriminate Hk.
  - replace (E ++ "/" ++ role ++ "/" ++ f ++ "/connections/" ++ id
             ++ "/" ++ link)
      with ((E ++ "/" ++ role ++ "/" ++ f)
            ++ "/connections/" ++ id ++ "/" ++ link)
      by now rewrite !append_assoc.
    replace (E ++ "/" ++ role ++ "/" ++ f ++ "/connections/*/" ++ link)
      with ((E ++ "/" ++ role ++ "/" ++ f) ++ "/connections/*/" ++ link)
      by now rewrite !append_assoc.
    apply compare_record; [exact Hseg | exact Hlf |].
    destruct Hlink as [-> | ->]; reflexivity.
Qed.

(** The puts of one side are not seen through a pattern of the other
    role. *)
Lemma side_elsewhere (store : object) (E role f id link target : string)
    (properties : object) (E' role' rest' : string) :
  slashes E = 5 -> slashes E' = 5 -> segment role -> segment role' ->
  literal role' = true -> same_letters role' role = false ->
  filter
    (apply_writes store
       (side (E ++ "/" ++ role ++ "/" ++ f ++ "/connections/" ++ id ++ "/")
          link target properties))
    (E' ++ "/" ++ role' ++ "/" ++ rest')
  = filter store (E' ++ "/" ++ role' ++ "/" ++ rest').
Proof.
  intros HE HE' Hr Hr' Hlit Hdiff. apply filter_apply_writes.
  intros k Hk. apply side_keys in Hk.
  destruct Hk as [->|[name ->]]; rewrite !append_assoc;
    now apply compare_other_role.
Qed.



Example connection_completed_writes :
  connection sample_ids
    [("cns/N/nodes/A/contexts/X/provider/p1/properties/x", "1");
     ("cns/N/nodes/A/contexts/X/provider/p1/connections/c1/consumer",
      "cns/N/nodes/B/contexts/X")]
    (Candidate.make "cns/N/nodes/A/contexts/X" "cns/N/nodes/B/contexts/X"
       (str "p1") "1") 0
  = ([("cns/N/nodes/B/contexts/X/consumer/p1/connections/c1/provider",
       "cns/N/nodes/A/contexts/X");
      ("cns/N/nodes/B/contexts/X/consumer/p1/connections/c1/properties/x",
       "1")], 0).
Proof. vm_compute. reflexivity. Qed.
